(** * NTU Sports reconciliation tool: a shallow embedding of
      [membership_checker.py] and the properties of its reconciliation engine.

    Conventions of the embedding.
    - A DataFrame is a list of rows in index order; a row label is the
      position of the row (the frames come from [read_csv], whose index is
      [0..n-1], and [selected_players] keeps the order of [members_df]).
    - A cell of an identifier or name column that pandas reads as NaN is
      [None]; a present cell is [Some]. Amounts and dates of payments are
      taken as present.
    - The numeric columns of the bookings ([Hours], [AmountPaid],
      [Expected]) are binary64 floating-point numbers, as pandas holds them,
      with the arithmetic and the comparisons of IEEE 754 that Python
      floats have ([float] of the kernel); a blank cell is a NaN.
    - The amounts of payments and the similarity ratios are exact rationals
      ([Q]): the rounding of the additions [PaidAmount += Amount] and of
      [ANNUAL_FEE - PaidAmount] is not modelled. The statements about sums
      of amounts therefore hold of the program up to that rounding, and
      exactly where the sums are exact in binary64 (amounts in whole pounds,
      say); a total within rounding distance of the fee can get another
      status in the program than here. For the similarity ratio
      [2.0 * M / T] the idealisation changes no comparison with the cutoff
      and no tie between two ratios as long as the names are shorter than
      some millions of characters, two distinct such fractions being further
      apart than the precision of a float.
    - A Python [str] is a [string] whose characters are the code points
      below 256.
    - Identifiers are integers.

    The file has two parts: the embedding of the code (with the vocabulary of
    the statements), then the properties. *)

From Stdlib Require Floats.
Import PrimFloat.
From Stdlib Require Import Ascii String QArith Lqa.
From stdpp Require Import base option list sorting gmap gmultiset strings pretty.

Local Open Scope string_scope.
Local Open Scope list_scope.

Set Warnings "-inexact-float".

(** ** Constants *)

Definition ANNUAL_FEE : Q := 120%Q.
Definition HOURLY_RATE : float := 5.0%float.
Definition FUZZY_CUTOFF : Q := (86 # 100)%Q.

(** ** Python string primitives used by [normalize_name] *)

Module PyStr.

Definition code (c : ascii) : N := N_of_ascii c.

(** [str.isspace] on the code points below 256. *)
Definition isspace (c : ascii) : bool :=
  let n := code c in
  ((9 <=? n) && (n <=? 13) || (28 <=? n) && (n <=? 32)
   || (n =? 133) || (n =? 160))%N.

(** [str.lower] on one code point below 256: the upper-case letters are
    A-Z and the Latin-1 capitals 0xC0-0xDE except the multiplication sign
    0xD7; each maps to the code point 32 above it. *)
Definition lower_char (c : ascii) : ascii :=
  let n := code c in
  if ((65 <=? n) && (n <=? 90)
      || (192 <=? n) && (n <=? 222) && negb (n =? 215))%N
  then ascii_of_N (n + 32) else c.

Fixpoint lower (s : string) : string :=
  match s with
  | EmptyString => EmptyString
  | String c r => String (lower_char c) (lower r)
  end.

Fixpoint lstrip (s : string) : string :=
  match s with
  | EmptyString => EmptyString
  | String c r => if isspace c then lstrip r else s
  end.

(** Removes trailing whitespace: a character is dropped when it is
    whitespace and everything after it has been dropped. *)
Fixpoint rstrip (s : string) : string :=
  match s with
  | EmptyString => EmptyString
  | String c r =>
      match rstrip r with
      | EmptyString => if isspace c then EmptyString else String c EmptyString
      | r' => String c r'
      end
  end.

Definition strip (s : string) : string := rstrip (lstrip s).

(** [s.replace("  ", " ")]: one left-to-right scan; each occurrence of two
    spaces found by the scan is replaced by one space and the scan resumes
    after the occurrence (occurrences do not overlap, the output is not
    scanned again). *)
Fixpoint replace_double_space (s : string) : string :=
  match s with
  | EmptyString => EmptyString
  | String c r =>
      match r with
      | String d r' =>
          if (Ascii.eqb c " " && Ascii.eqb d " ")%bool
          then String " " (replace_double_space r')
          else String c (replace_double_space r)
      | EmptyString => String c EmptyString
      end
  end.

(** Two consecutive spaces occur somewhere in [s]. *)
Fixpoint has_double_space (s : string) : bool :=
  match s with
  | EmptyString => false
  | String c r =>
      match r with
      | String d _ => (Ascii.eqb c " " && Ascii.eqb d " ") || has_double_space r
      | EmptyString => false
      end
  end.

(** Three consecutive spaces occur somewhere in [s]. *)
Fixpoint has_triple_space (s : string) : bool :=
  match s with
  | EmptyString => false
  | String c r =>
      match r with
      | String d (String e _) =>
          (Ascii.eqb c " " && Ascii.eqb d " " && Ascii.eqb e " ")
          || has_triple_space r
      | _ => false
      end
  end.

Definition head_char (s : string) : option ascii :=
  match s with
  | EmptyString => None
  | String c _ => Some c
  end.

Fixpoint last_char (s : string) : option ascii :=
  match s with
  | EmptyString => None
  | String c r =>
      match last_char r with
      | None => Some c
      | Some d => Some d
      end
  end.

(** The characters that [lower_char] changes. *)
Definition is_upper (c : ascii) : bool :=
  let n := code c in
  ((65 <=? n) && (n <=? 90)
   || (192 <=? n) && (n <=? 222) && negb (n =? 215))%N.

Fixpoint string_all (P : ascii → bool) (s : string) : bool :=
  match s with
  | EmptyString => true
  | String c r => P c && string_all P r
  end.

End PyStr.

(** ** [normalize_name] *)

Definition normalize_name (name : option string) : string :=
  match name with
  | None => ""
  | Some s => PyStr.replace_double_space (PyStr.strip (PyStr.lower s))
  end.

(** ** The standard library's [difflib] (CPython 3.11), as far as
       [get_close_matches(word, possibilities, n=1, cutoff)] reaches it *)

Module Difflib.

Section SequenceMatcher.
Context `{Countable A}.

(** A block [(i, j, k)]: [a[i:i+k] == b[j:j+k]]. *)
Definition Match : Type := nat * nat * nat.

(** [_calculate_ratio(matches, length)]. *)
Definition _calculate_ratio (matches length : nat) : Q :=
  match length with
  | O => 1%Q
  | S _ => (2 * Z.of_nat matches # Pos.of_nat length)%Q
  end.

(** [__chain_b], first loop: [b2j[elt]] lists the positions of [elt] in [b],
    in increasing order. *)
Definition b2j_index (b : list A) : gmap A (list nat) :=
  fold_left (fun (b2j : gmap A (list nat)) (ie : nat * A) =>
               <[ie.2 := default [] (b2j !! ie.2) ++ [ie.1]]> b2j)
            (imap pair b) ∅.

(** [__chain_b], the autojunk step ([isjunk] is [None], so [bjunk] is empty):
    when [b] has at least 200 elements, the elements occurring more than
    [n // 100 + 1] times are deleted from [b2j]. *)
Definition chain_b (b : list A) : gmap A (list nat) :=
  let b2j := b2j_index b in
  let n := length b in
  if decide (200 ≤ n)%nat then
    let ntest := (n / 100 + 1)%nat in
    filter (fun ei : A * list nat => ¬ (ntest < length ei.2)%nat) b2j
  else b2j.

(** [j2len.get(j-1, 0)]; the key [-1] is never present. *)
Definition j2len_prev (j2len : gmap nat nat) (j : nat) : nat :=
  match j with
  | O => O
  | S j' => default O (j2len !! j')
  end.

(** The inner loop of [find_longest_match] over [b2j.get(a[i], [])]:
    [continue] below [blo], [break] from [bhi] on. *)
Fixpoint flm_inner (blo bhi i : nat) (j2len : gmap nat nat) (js : list nat)
    (newj2len : gmap nat nat) (best : Match) : gmap nat nat * Match :=
  match js with
  | [] => (newj2len, best)
  | j :: js' =>
      if (j <? blo)%nat then flm_inner blo bhi i j2len js' newj2len best
      else if (bhi <=? j)%nat then (newj2len, best)
      else
        let k := (j2len_prev j2len j + 1)%nat in
        let newj2len := <[j := k]> newj2len in
        let best := if (best.2 <? k)%nat then (i + 1 - k, j + 1 - k, k)%nat
                    else best in
        flm_inner blo bhi i j2len js' newj2len best
  end.

(** The outer loop [for i in range(alo, ahi)], over the elements
    [a[alo:ahi]] in turn. *)
Fixpoint flm_outer (b2j : gmap A (list nat)) (blo bhi : nat)
    (row : list A) (i : nat) (j2len : gmap nat nat) (best : Match) : Match :=
  match row with
  | [] => best
  | x :: row' =>
      let '(newj2len, best) :=
        flm_inner blo bhi i j2len (default [] (b2j !! x)) ∅ best in
      flm_outer b2j blo bhi row' (S i) newj2len best
  end.

(** [a[i] == b[j]] for positions inside both sequences. *)
Definition same_at (a b : list A) (i j : nat) : bool :=
  match a !! i, b !! j with
  | Some x, Some y => bool_decide (x = y)
  | _, _ => false
  end.

(** First [while]: extend the block to the left. *)
Fixpoint extend_left (a b : list A) (alo blo : nat) (besti bestj bestsize : nat)
    {struct besti} : Match :=
  match besti, bestj with
  | S i', S j' =>
      if (alo <? besti)%nat && (blo <? bestj)%nat && same_at a b i' j'
      then extend_left a b alo blo i' j' (S bestsize)
      else (besti, bestj, bestsize)
  | _, _ => (besti, bestj, bestsize)
  end.

(** Second [while]: extend the block to the right; [steps] bounds the number
    of iterations and is given as [ahi - (besti + bestsize)], which the loop
    condition [besti + bestsize < ahi] never lets it exceed. *)
Fixpoint extend_right (a b : list A) (ahi bhi : nat) (besti bestj bestsize : nat)
    (steps : nat) : nat :=
  match steps with
  | O => bestsize
  | S steps' =>
      if (besti + bestsize <? ahi)%nat && (bestj + bestsize <? bhi)%nat
         && same_at a b (besti + bestsize) (bestj + bestsize)
      then extend_right a b ahi bhi besti bestj (S bestsize) steps'
      else bestsize
  end.

(** [find_longest_match(alo, ahi, blo, bhi)]. The last two [while] loops of
    the source extend over junk only and never run, [bjunk] being empty. *)
Definition find_longest_match (a b : list A) (b2j : gmap A (list nat))
    (alo ahi blo bhi : nat) : Match :=
  let '(besti, bestj, bestsize) :=
    flm_outer b2j blo bhi (take (ahi - alo) (drop alo a)) alo ∅ (alo, blo, O) in
  let '(besti, bestj, bestsize) :=
    extend_left a b alo blo besti bestj bestsize in
  (besti, bestj,
   extend_right a b ahi bhi besti bestj bestsize (ahi - (besti + bestsize))).

(** The [while queue:] loop of [get_matching_blocks]; the head of [queue] is
    the entry [queue.pop()] takes. [fuel] bounds the number of iterations. *)
Fixpoint blocks_loop (a b : list A) (b2j : gmap A (list nat)) (fuel : nat)
    (queue : list (nat * nat * nat * nat)) (matching_blocks : list Match)
    : list Match :=
  match fuel, queue with
  | S fuel', (alo, ahi, blo, bhi) :: queue' =>
      let '(i, j, k) := find_longest_match a b b2j alo ahi blo bhi in
      if (k =? 0)%nat then blocks_loop a b b2j fuel' queue' matching_blocks
      else
        let q1 := if (alo <? i)%nat && (blo <? j)%nat
                  then [(alo, i, blo, j)] else [] in
        let q2 := if (i + k <? ahi)%nat && (j + k <? bhi)%nat
                  then [(i + k, ahi, j + k, bhi)] else [] in
        blocks_loop a b b2j fuel' (q2 ++ q1 ++ queue')
                    (matching_blocks ++ [(i, j, k)])
  | _, _ => matching_blocks
  end.

(** Tuple order of [matching_blocks.sort()]. *)
Definition Match_le (x y : Match) : Prop :=
  (x.1.1 < y.1.1 ∨ (x.1.1 = y.1.1 ∧
     (x.1.2 < y.1.2 ∨ (x.1.2 = y.1.2 ∧ x.2 ≤ y.2))))%nat.

#[global] Instance Match_le_dec x y : Decision (Match_le x y).
Proof. unfold Match_le. apply _. Defined.

(** The loop that merges adjacent blocks, with the trailing [if k1:]. *)
Fixpoint collapse (blocks : list Match) (cur : Match) (non_adjacent : list Match)
    : list Match :=
  match blocks with
  | [] => if (cur.2 =? 0)%nat then non_adjacent else non_adjacent ++ [cur]
  | (i2, j2, k2) :: blocks' =>
      let '(i1, j1, k1) := cur in
      if (i1 + k1 =? i2)%nat && (j1 + k1 =? j2)%nat
      then collapse blocks' (i1, j1, (k1 + k2)%nat) non_adjacent
      else collapse blocks' (i2, j2, k2)
             (if (k1 =? 0)%nat then non_adjacent else non_adjacent ++ [cur])
  end.

(** [get_matching_blocks()]; every pass of the loop takes one region off the
    queue, and [2 * len(a) + 1] passes empty it. *)
Definition get_matching_blocks (a b : list A) : list Match :=
  let la := length a in
  let lb := length b in
  let matching_blocks :=
    blocks_loop a b (chain_b b) (2 * la + 1) [(O, la, O, lb)] [] in
  collapse (merge_sort Match_le matching_blocks) (O, O, O) [] ++ [(la, lb, O)].

(** [ratio()]. *)
Definition ratio (a b : list A) : Q :=
  let matches := foldr (fun (triple : Match) acc => (triple.2 + acc)%nat) O
                       (get_matching_blocks a b) in
  _calculate_ratio matches (length a + length b).

(** [fullbcount] of [quick_ratio]. *)
Definition fullbcount (b : list A) : gmap A Z :=
  fold_left (fun (m : gmap A Z) elt => <[elt := (default 0 (m !! elt) + 1)%Z]> m) b ∅.

(** The loop of [quick_ratio] over [a], on the state [(avail, matches)]. *)
Definition quick_step (fbc : gmap A Z) (st : gmap A Z * nat) (elt : A)
    : gmap A Z * nat :=
  let '(avail, matches) := st in
  let numb := match avail !! elt with
              | Some n => n
              | None => default 0%Z (fbc !! elt)
              end in
  (<[elt := (numb - 1)%Z]> avail, if (0 <? numb)%Z then S matches else matches).

(** [quick_ratio()]. *)
Definition quick_ratio (a b : list A) : Q :=
  let '(_, matches) := fold_left (quick_step (fullbcount b)) a (∅, O) in
  _calculate_ratio matches (length a + length b).

(** [real_quick_ratio()]. *)
Definition real_quick_ratio (a b : list A) : Q :=
  let la := length a in
  let lb := length b in
  _calculate_ratio (la `min` lb) (la + lb).

End SequenceMatcher.

(** Python's [>] on [str]: code points compared lexicographically. *)
Definition str_gt (x y : string) : bool := String.ltb y x.

(** Python's [>] on the tuples [(score, x)]: the first components that differ
    decide. *)
Definition tuple_gt (s t : Q * string) : bool :=
  if Qeq_bool s.1 t.1 then
    if String.eqb s.2 t.2 then false else str_gt s.2 t.2
  else negb (Qle_bool s.1 t.1).

(** [max(it, default=sentinel)]: the running maximum is replaced only by a
    strictly greater item. *)
Fixpoint max_from (cur : Q * string) (it : list (Q * string)) : Q * string :=
  match it with
  | [] => cur
  | item :: it' => max_from (if tuple_gt item cur then item else cur) it'
  end.

(** [heapq.nlargest(1, result)]. *)
Definition nlargest_1 (result : list (Q * string)) : list (Q * string) :=
  match result with
  | [] => []
  | item :: it => [max_from item it]
  end.

(** [SequenceMatcher] with [seq2 = word] and [seq1 = x]. *)
Definition seq_ratio (word x : string) : Q :=
  ratio (list_ascii_of_string x) (list_ascii_of_string word).

Definition seq_quick_ratio (word x : string) : Q :=
  quick_ratio (list_ascii_of_string x) (list_ascii_of_string word).

Definition seq_real_quick_ratio (word x : string) : Q :=
  real_quick_ratio (list_ascii_of_string x) (list_ascii_of_string word).

(** The test a possibility has to pass to enter [result]. *)
Definition close_enough (cutoff : Q) (word x : string) : bool :=
  Qle_bool cutoff (seq_real_quick_ratio word x)
  && Qle_bool cutoff (seq_quick_ratio word x)
  && Qle_bool cutoff (seq_ratio word x).

(** [get_close_matches(word, possibilities, n=1, cutoff)]; the two
    [ValueError] checks pass for [n = 1] and a cutoff in [[0, 1]]. *)
Definition get_close_matches (word : string) (possibilities : list string)
    (cutoff : Q) : list string :=
  let result :=
    (fun x => (seq_ratio word x, x)) <$>
      filter (fun x => close_enough cutoff word x = true) possibilities in
  snd <$> nlargest_1 result.

End Difflib.

(** ** The tables *)

(** A row of [members_df]. [NormalizedName] is the column that
    [load_and_preprocess_data] adds; whatever a row holds there before is
    overwritten. *)
Module Member.
Record t : Type := mk {
  StudentID : option Z;
  FullName : option string;
  Team : string;
  IsSelectedOfficialTeam : string;
  NormalizedName : string
}.
Definition with_NormalizedName (n : string) (m : t) : t :=
  mk (StudentID m) (FullName m) (Team m) (IsSelectedOfficialTeam m) n.
End Member.

(** A row of [payments_df]. *)
Module Payment.
Record t : Type := mk {
  StudentID : option Z;
  FullName : option string;
  Amount : Q;
  PaymentDate : string;
  NormalizedName : string
}.
Definition with_NormalizedName (n : string) (p : t) : t :=
  mk (StudentID p) (FullName p) (Amount p) (PaymentDate p) n.
End Payment.

(** A row of [external_df]; the last three columns are those that
    [validate_external_bookings] adds ([None] before). *)
Module Booking.
Record t : Type := mk {
  BookingID : string;
  FullName : option string;
  BookingStart : string;
  Hours : float;
  AmountPaid : float;
  NormalizedName : string;
  Expected : option float;
  Underpaid : option bool;
  MissingPayment : option bool
}.
Definition with_NormalizedName (n : string) (b : t) : t :=
  mk (BookingID b) (FullName b) (BookingStart b) (Hours b) (AmountPaid b) n
     (Expected b) (Underpaid b) (MissingPayment b).
End Booking.

Inductive PaidStatus : Type := Paid | Underpaid | Unpaid.

#[global] Instance PaidStatus_eq_dec : EqDecision PaidStatus.
Proof. solve_decision. Defined.

(** A row of [selected_players]: the member's columns and the four result
    columns. *)
Module Player.
Record t : Type := mk {
  member : Member.t;
  PaidAmount : Q;
  PaidStatus : PaidStatus;
  Outstanding : Q;
  PaymentDate : option string
}.
Definition StudentID (pl : t) : option Z := Member.StudentID (member pl).
Definition FullName (pl : t) : option string := Member.FullName (member pl).
Definition NormalizedName (pl : t) : string := Member.NormalizedName (member pl).
End Player.

Inductive MatchType : Type := MT_StudentID | MT_FuzzyName | MT_Unmatched.

#[global] Instance MatchType_eq_dec : EqDecision MatchType.
Proof. solve_decision. Defined.

(** An entry of [resolved_payments]: [payment.to_dict()] and the two keys
    added to it. *)
Module Resolved.
Record t : Type := mk {
  payment : Payment.t;
  ResolvedStudentID : option Z;
  MatchType : MatchType
}.
End Resolved.

Module Suggestion.
Record t : Type := mk {
  EnteredName : option string;
  SuggestedName : option string
}.
End Suggestion.

(** ** Comparisons of Python numbers, on [Q] *)

Definition Qgeb (x y : Q) : bool := Qle_bool y x.
Definition Qgtb (x y : Q) : bool := negb (Qle_bool x y).

(** [max(0, y)]: [y] replaces [0] only when it is greater. *)
Definition max0 (y : Q) : Q := if Qgtb y 0 then y else 0%Q.

(** ** [load_and_preprocess_data], after the three [read_csv] *)

Definition load_and_preprocess_data
    (members_csv : list Member.t) (payments_csv : list Payment.t)
    (external_csv : list Booking.t)
    : list Member.t * list Payment.t * list Booking.t :=
  ((fun m => Member.with_NormalizedName (normalize_name (Member.FullName m)) m)
     <$> members_csv,
   (fun p => Payment.with_NormalizedName (normalize_name (Payment.FullName p)) p)
     <$> payments_csv,
   (fun b => Booking.with_NormalizedName (normalize_name (Booking.FullName b)) b)
     <$> external_csv).

(** ** [reconcile_memberships] *)

(** What the two passes read and write. *)
Record MatchState : Type := mkState {
  selected_players : list Player.t;
  matched_payment_indices : gset nat;
  fuzzy_suggestions : list Suggestion.t;
  resolved_payments : list Resolved.t
}.

(** [members_df[members_df['IsSelectedOfficialTeam'] == 'Yes'].copy()] with
    the four result columns initialised. *)
Definition init_selected (members_df : list Member.t) : list Player.t :=
  (fun m => Player.mk m 0%Q Unpaid ANNUAL_FEE None)
    <$> filter (fun m => Member.IsSelectedOfficialTeam m = "Yes") members_df.

(** The three [.at[matched_idx, ...]] assignments of a match. *)
Definition credit (payment : Payment.t) (pl : Player.t) : Player.t :=
  let paid := (Player.PaidAmount pl + Payment.Amount payment)%Q in
  Player.mk (Player.member pl) paid (Player.PaidStatus pl)
            (max0 (ANNUAL_FEE - paid)) (Some (Payment.PaymentDate payment)).

(** [df.iterrows()]: the rows with their index labels. *)
Definition iterrows {R : Type} (df : list R) : list (nat * R) := imap pair df.

(** Body of the first loop (match by StudentID). *)
Definition exact_step (st : MatchState) (row : nat * Payment.t) : MatchState :=
  let '(idx, payment) := row in
  let resolved_payment := Resolved.mk payment None MT_Unmatched in
  let hit :=
    match Payment.StudentID payment with
    | Some student_id =>
        list_find (fun pl => Player.StudentID pl = Some student_id)
                  (selected_players st)
    | None => None
    end in
  match hit with
  | Some (matched_idx, pl) =>
      mkState (alter (credit payment) matched_idx (selected_players st))
              ({[idx]} ∪ matched_payment_indices st)
              (fuzzy_suggestions st)
              (resolved_payments st
                 ++ [Resolved.mk payment (Player.StudentID pl) MT_StudentID])
  | None =>
      mkState (selected_players st) (matched_payment_indices st)
              (fuzzy_suggestions st)
              (resolved_payments st ++ [resolved_payment])
  end.

(** The [for rp in resolved_payments] update of the second loop. *)
Definition mark_fuzzy (normalized_payment_name : string) (sid : option Z)
    (rp : Resolved.t) : Resolved.t :=
  if decide (Payment.NormalizedName (Resolved.payment rp) = normalized_payment_name
             ∧ Resolved.MatchType rp = MT_Unmatched)
  then Resolved.mk (Resolved.payment rp) sid MT_FuzzyName
  else rp.

(** Body of the second loop (fuzzy match by name). *)
Definition fuzzy_step (all_selected_names : list string)
    (st : MatchState) (row : nat * Payment.t) : MatchState :=
  let '(idx, payment) := row in
  if decide (idx ∈ matched_payment_indices st) then st
  else
    let normalized_payment_name := normalize_name (Payment.FullName payment) in
    if decide (normalized_payment_name = "") then st
    else
      match Difflib.get_close_matches normalized_payment_name
                                      all_selected_names FUZZY_CUTOFF with
      | matched_name :: _ =>
          match list_find (fun pl => Player.NormalizedName pl = matched_name)
                          (selected_players st) with
          | Some (matched_idx, pl) =>
              mkState
                (alter (credit payment) matched_idx (selected_players st))
                ({[idx]} ∪ matched_payment_indices st)
                (if decide (normalized_payment_name ≠ matched_name)
                 then fuzzy_suggestions st
                        ++ [Suggestion.mk (Payment.FullName payment)
                                          (Player.FullName pl)]
                 else fuzzy_suggestions st)
                (mark_fuzzy normalized_payment_name (Player.StudentID pl)
                   <$> resolved_payments st)
          | None => st
          end
      | [] => st
      end.

(** The [# Update payment status] loop, on one row. *)
Definition status_of (paid_amount : Q) : PaidStatus :=
  if Qgeb paid_amount ANNUAL_FEE then Paid
  else if Qgtb paid_amount 0 then Underpaid
  else Unpaid.

Definition update_status (pl : Player.t) : Player.t :=
  Player.mk (Player.member pl) (Player.PaidAmount pl)
            (status_of (Player.PaidAmount pl))
            (Player.Outstanding pl) (Player.PaymentDate pl).

(** [set(members_df['StudentID'])], as far as a present identifier can be
    found in it. *)
Definition all_member_ids (members_df : list Member.t) : gset Z :=
  list_to_set (omap Member.StudentID members_df).

(** The flag [payment_matched] of the third loop. *)
Definition payment_matched (members_df : list Member.t) (payment : Payment.t)
    : bool :=
  let by_id :=
    match Payment.StudentID payment with
    | Some sid => bool_decide (sid ∈ all_member_ids members_df)
    | None => false
    end in
  if by_id then true
  else
    match Payment.FullName payment with
    | Some _ =>
        bool_decide (normalize_name (Payment.FullName payment)
                       ∈ (Member.NormalizedName <$> members_df))
    | None => false
    end.

(** The third loop ([# Find payments from non-selected players]). *)
Definition find_paid_not_selected (members_df : list Member.t)
    (matched : gset nat) (payments_df : list Payment.t) : list Payment.t :=
  snd <$>
    filter (fun row : nat * Payment.t =>
              (row.1 ∉ matched) ∧ payment_matched members_df row.2 = false)
           (iterrows payments_df).

Record Reconciliation : Type := mkReconciliation {
  r_selected_players : list Player.t;
  r_fuzzy_suggestions : list Suggestion.t;
  r_paid_not_selected : list Payment.t;
  r_unmatched_payments : list Resolved.t;
  r_resolved_payments : list Resolved.t
}.

Definition exact_pass (selected : list Player.t) (payments_df : list Payment.t)
    : MatchState :=
  fold_left exact_step (iterrows payments_df) (mkState selected ∅ [] []).

Definition fuzzy_pass (st : MatchState) (payments_df : list Payment.t)
    : MatchState :=
  let all_selected_names := Player.NormalizedName <$> selected_players st in
  fold_left (fuzzy_step all_selected_names) (iterrows payments_df) st.

Definition reconcile_memberships (members_df : list Member.t)
    (payments_df : list Payment.t) : Reconciliation :=
  let st := fuzzy_pass (exact_pass (init_selected members_df) payments_df)
                       payments_df in
  mkReconciliation
    (update_status <$> selected_players st)
    (fuzzy_suggestions st)
    (find_paid_not_selected members_df (matched_payment_indices st) payments_df)
    (filter (fun rp => Resolved.MatchType rp = MT_Unmatched)
            (resolved_payments st))
    (resolved_payments st).

(** ** [validate_external_bookings] *)

(** The three column assignments, on one row: the product, the difference
    and the two comparisons are those of binary64 floats. *)
Definition annotate (b : Booking.t) : Booking.t :=
  let expected := (Booking.Hours b * HOURLY_RATE)%float in
  Booking.mk (Booking.BookingID b) (Booking.FullName b) (Booking.BookingStart b)
             (Booking.Hours b) (Booking.AmountPaid b) (Booking.NormalizedName b)
             (Some expected)
             (Some (Booking.AmountPaid b <? expected - 0.01)%float)
             (Some (Booking.AmountPaid b <=? 0)%float).

Definition validate_external_bookings (external_df : list Booking.t)
    : list Booking.t * list Booking.t :=
  let external_df := annotate <$> external_df in
  let external_issues :=
    filter (fun b => Booking.Underpaid b = Some true
                     ∨ Booking.MissingPayment b = Some true) external_df in
  (external_df, external_issues).

(** ** [generate_summary] *)

(** Python exceptions the modelled code can raise, and computations that may
    raise. *)
Inductive exn : Type := ZeroDivisionError.

Inductive result (T : Type) : Type :=
| Ok (v : T)
| Raise (e : exn).
Arguments Ok {T} v.
Arguments Raise {T} e.

#[global] Instance result_ret : MRet result := fun T v => Ok v.

#[global] Instance result_bind : MBind result := fun T U k r =>
  match r with
  | Ok v => k v
  | Raise e => Raise e
  end.

(** Python's true division [x / y]. *)
Definition py_div (x y : Q) : result Q :=
  if Qeq_bool y 0 then Raise ZeroDivisionError else Ok (x / y)%Q.

Definition Qnat (n : nat) : Q := inject_Z (Z.of_nat n).

(** The conditional expression that computes [mismatch_rate]. *)
Definition mismatch_rate (underpaid_count unpaid_count total_selected : nat)
    : result Q :=
  if (0 <? total_selected)%nat then
    q ← py_div (Qnat (underpaid_count + unpaid_count)) (Qnat total_selected);
    Ok (q * 100)%Q
  else Ok 0%Q.

Definition count_status (s : PaidStatus) (selected_players : list Player.t) : nat :=
  length (filter (fun pl => Player.PaidStatus pl = s) selected_players).

Definition Qsum (l : list Q) : Q := foldr Qplus 0%Q l.

(** The number that a finite float stands for, for the totals of the
    report: these are taken as exact sums, the rounding of [Series.sum()]
    not being modelled. [Series.sum()] skips a NaN, which counts for
    nothing; an infinite cell is outside what the totals model. *)
Definition float_value (x : float) : Q :=
  match FloatOps.Prim2SF x with
  | SpecFloat.S754_finite s m e =>
      let v := (inject_Z (Z.pos m) * Qpower 2 e)%Q in
      if s then (- v)%Q else v
  | _ => 0%Q
  end.

(** A reading of the clock, as [datetime.now()] returns it. *)
Record datetime : Type := mkDatetime {
  year : nat; month : nat; day : nat; hour : nat; minute : nat; second : nat
}.

(** Two decimal digits, zero-padded ([%m], [%d], [%H], [%M], [%S]). *)
Definition two_digits (n : nat) : string :=
  if (n <? 10)%nat then "0" +:+ pretty n else pretty n.

(** [strftime('%Y-%m-%d %H:%M:%S')]. *)
Definition strftime (t : datetime) : string :=
  pretty (year t) +:+ "-" +:+ two_digits (month t) +:+ "-" +:+ two_digits (day t)
  +:+ " " +:+ two_digits (hour t) +:+ ":" +:+ two_digits (minute t)
  +:+ ":" +:+ two_digits (second t).

Definition nl : string := String (ascii_of_nat 10) EmptyString.

(** The pound sign of the source; the character itself plays no role. *)
Definition pound : string := String (ascii_of_nat 163) EmptyString.

Section Summary.

(** The renderings [{x:.1f}] and [{x:,.2f}] of a float: decimal rounding of
    binary floating point is outside the model, so both stay abstract. *)
Variable fmt_1f : Q → string.
Variable fmt_2f : Q → string.

(** The text of the report after its second line. *)
Definition summary_body (total_selected paid_count underpaid_count unpaid_count : nat)
    (mismatch : Q) (membership_expected membership_collected : Q)
    (n_bookings : nat) (external_expected external_collected : Q)
    (external_issues_count non_selected_payments_count unmatched_payments_count : nat)
    : string :=
  nl +:+ "MEMBERSHIP SUMMARY:" +:+ nl
  +:+ "Total selected members: " +:+ pretty total_selected +:+ nl
  +:+ "- Paid in full: " +:+ pretty paid_count +:+ nl
  +:+ "- Underpaid: " +:+ pretty underpaid_count +:+ nl
  +:+ "- Unpaid: " +:+ pretty unpaid_count +:+ nl
  +:+ "Mismatch rate: " +:+ fmt_1f mismatch +:+ "%" +:+ nl
  +:+ nl +:+ "Membership revenue:" +:+ nl
  +:+ "- Expected: " +:+ pound +:+ fmt_2f membership_expected +:+ nl
  +:+ "- Collected: " +:+ pound +:+ fmt_2f membership_collected +:+ nl
  +:+ "- Difference: " +:+ pound
      +:+ fmt_2f (membership_collected - membership_expected)%Q +:+ nl
  +:+ nl +:+ "EXTERNAL BOOKINGS:" +:+ nl
  +:+ "Total bookings: " +:+ pretty n_bookings +:+ nl
  +:+ "- Expected: " +:+ pound +:+ fmt_2f external_expected +:+ nl
  +:+ "- Collected: " +:+ pound +:+ fmt_2f external_collected +:+ nl
  +:+ "- Difference: " +:+ pound
      +:+ fmt_2f (external_collected - external_expected)%Q +:+ nl
  +:+ "- Bookings with issues: " +:+ pretty external_issues_count +:+ nl
  +:+ nl +:+ "ADDITIONAL FINDINGS:" +:+ nl
  +:+ "- Payments from non-selected players: "
      +:+ pretty non_selected_payments_count +:+ nl
  +:+ "- Unmatched payments (need review): "
      +:+ pretty unmatched_payments_count +:+ nl.

(** [generate_summary], given the reading [now] that [datetime.now()]
    returns while the text is built. *)
Definition generate_summary (now : datetime)
    (selected_players : list Player.t) (paid_not_selected : list Payment.t)
    (unmatched_payments : list Resolved.t)
    (external_df external_issues : list Booking.t) : result string :=
  let total_selected := length selected_players in
  let paid_count := count_status Paid selected_players in
  let underpaid_count := count_status Underpaid selected_players in
  let unpaid_count := count_status Unpaid selected_players in
  rate ← mismatch_rate underpaid_count unpaid_count total_selected;
  let membership_expected := (Qnat total_selected * ANNUAL_FEE)%Q in
  let membership_collected := Qsum (Player.PaidAmount <$> selected_players) in
  let external_expected :=
    Qsum ((fun b => from_option float_value 0%Q (Booking.Expected b))
            <$> external_df) in
  let external_collected :=
    Qsum ((fun b => float_value (Booking.AmountPaid b)) <$> external_df) in
  Ok ("NTU Sports - Membership & Bookings Reconciliation" +:+ nl
      +:+ "Generated: " +:+ strftime now +:+ nl
      +:+ summary_body total_selected paid_count underpaid_count unpaid_count
            rate membership_expected membership_collected
            (length external_df) external_expected external_collected
            (length external_issues) (length paid_not_selected)
            (length unmatched_payments)).

(** ** [save_outputs] and [main] *)

(** The row written to [ntu_membership_selected_status.csv]. *)
Record StatusRow : Type := mkStatusRow {
  sr_StudentID : option Z;
  sr_FullName : option string;
  sr_Team : string;
  sr_PaidAmount : Q;
  sr_PaidStatus : PaidStatus;
  sr_Outstanding : Q;
  sr_PaymentDate : option string
}.

(** The row written to [ntu_membership_payments_resolved.csv]: the column
    [NormalizedName] is dropped. *)
Record ResolvedRow : Type := mkResolvedRow {
  rr_StudentID : option Z;
  rr_FullName : option string;
  rr_Amount : Q;
  rr_PaymentDate : string;
  rr_ResolvedStudentID : option Z;
  rr_MatchType : MatchType
}.

(** The eight files of [save_outputs], as tables. *)
Record Outputs : Type := mkOutputs {
  ntu_membership_summary : string;
  ntu_membership_selected_status : list StatusRow;
  ntu_membership_paid_not_selected : list Payment.t;
  ntu_membership_unmatched_payments : list Resolved.t;
  ntu_membership_fuzzy_suggestions : list Suggestion.t;
  ntu_membership_payments_resolved : list ResolvedRow;
  ntu_membership_external_all : list Booking.t;
  ntu_membership_external_issues : list Booking.t
}.

Definition save_outputs (selected_players : list Player.t)
    (fuzzy_suggestions : list Suggestion.t) (paid_not_selected : list Payment.t)
    (unmatched_payments resolved_payments : list Resolved.t)
    (external_df external_issues : list Booking.t) (summary : string) : Outputs :=
  mkOutputs summary
    ((fun pl => mkStatusRow (Player.StudentID pl) (Player.FullName pl)
                  (Member.Team (Player.member pl)) (Player.PaidAmount pl)
                  (Player.PaidStatus pl) (Player.Outstanding pl)
                  (Player.PaymentDate pl)) <$> selected_players)
    paid_not_selected unmatched_payments fuzzy_suggestions
    ((fun rp => let p := Resolved.payment rp in
                mkResolvedRow (Payment.StudentID p) (Payment.FullName p)
                  (Payment.Amount p) (Payment.PaymentDate p)
                  (Resolved.ResolvedStudentID rp) (Resolved.MatchType rp))
       <$> resolved_payments)
    external_df external_issues.

(** [main], from the contents of the three CSV files and the reading of the
    clock to the contents of the files written. *)
Definition main (now : datetime) (members_csv : list Member.t)
    (payments_csv : list Payment.t) (external_csv : list Booking.t)
    : result Outputs :=
  let '(members_df, payments_df, external_df) :=
    load_and_preprocess_data members_csv payments_csv external_csv in
  let r := reconcile_memberships members_df payments_df in
  let '(external_df, external_issues) := validate_external_bookings external_df in
  summary ← generate_summary now (r_selected_players r) (r_paid_not_selected r)
              (r_unmatched_payments r) external_df external_issues;
  Ok (save_outputs (r_selected_players r) (r_fuzzy_suggestions r)
        (r_paid_not_selected r) (r_unmatched_payments r)
        (r_resolved_payments r) external_df external_issues summary).

End Summary.

(** ** Vocabulary of the statements about the report *)



(** ** Vocabulary of the statements about the two passes *)

(** The row of [selected] that the first loop credits with [payment], if
    any: the first row carrying the payment's identifier. *)
Definition exact_target (selected : list Player.t) (payment : Payment.t)
    : option nat :=
  match Payment.StudentID payment with
  | Some sid =>
      fst <$> list_find (fun pl => Player.StudentID pl = Some sid) selected
  | None => None
  end.

(** The name that the fuzzy search returns for a normalised payment name. *)
Definition fuzzy_name (selected : list Player.t) (name : string) : option string :=
  if decide (name = "") then None
  else head (Difflib.get_close_matches name (Player.NormalizedName <$> selected)
                                       FUZZY_CUTOFF).

(** The row of [selected] that the second loop credits with a payment of
    normalised name [name] that it reaches, if any: the first row carrying
    the name returned by the fuzzy search. *)
Definition fuzzy_target_name (selected : list Player.t) (name : string)
    : option nat :=
  matched_name ← fuzzy_name selected name;
  fst <$> list_find (fun pl => Player.NormalizedName pl = matched_name) selected.

Definition fuzzy_target (selected : list Player.t) (payment : Payment.t)
    : option nat :=
  fuzzy_target_name selected (normalize_name (Payment.FullName payment)).

(** The payments matched to row [k] by the first loop, in input order. *)
Definition exact_matches (selected : list Player.t)
    (payments_df : list Payment.t) (k : nat) : list Payment.t :=
  filter (fun p => exact_target selected p = Some k) payments_df.

(** The payments matched to row [k] by the second loop, in input order. *)
Definition fuzzy_matches (selected : list Player.t)
    (payments_df : list Payment.t) (k : nat) : list Payment.t :=
  filter (fun p => exact_target selected p = None
                   ∧ fuzzy_target selected p = Some k) payments_df.

(** The payments matched to row [k] in processing order: the matches of the
    first loop, then those of the second. *)
Definition credits (selected : list Player.t)
    (payments_df : list Payment.t) (k : nat) : list Payment.t :=
  exact_matches selected payments_df k ++ fuzzy_matches selected payments_df k.

Definition credit_all (payments : list Payment.t) (pl : Player.t) : Player.t :=
  fold_left (fun pl p => credit p pl) payments pl.

(** The identifier of row [k]. *)
Definition row_id (selected : list Player.t) (k : nat) : option Z :=
  pl ← selected !! k; Player.StudentID pl.

(** The entry of the audit trail that a payment ends with. *)
Definition resolve (selected : list Player.t) (p : Payment.t) : Resolved.t :=
  match exact_target selected p with
  | Some k => Resolved.mk p (row_id selected k) MT_StudentID
  | None =>
      match fuzzy_target selected p with
      | Some k => Resolved.mk p (row_id selected k) MT_FuzzyName
      | None => Resolved.mk p None MT_Unmatched
      end
  end.

(** The payments table has the column that [load_and_preprocess_data]
    computes. *)
Definition preprocessed (payments_df : list Payment.t) : Prop :=
  Forall (fun p => Payment.NormalizedName p = normalize_name (Payment.FullName p))
         payments_df.

(** A payment with normalised name [n], left over by the first pass and
    matched by the second, occurs in [seen]. *)
Definition fuzzy_seen (selected : list Player.t) (seen : list Payment.t)
    (n : string) : Prop :=
  Exists (fun q => exact_target selected q = None
                   ∧ normalize_name (Payment.FullName q) = n
                   ∧ is_Some (fuzzy_target selected q)) seen.

(** The entry of the audit trail for [p] when the second loop has gone
    through the payments [seen]. *)
Definition partial_resolve (selected : list Player.t) (seen : list Payment.t)
    (p : Payment.t) : Resolved.t :=
  match exact_target selected p with
  | Some k => Resolved.mk p (row_id selected k) MT_StudentID
  | None =>
      if decide (fuzzy_seen selected seen (Payment.NormalizedName p))
      then Resolved.mk p
             (k ← fuzzy_target_name selected (Payment.NormalizedName p);
              row_id selected k)
             MT_FuzzyName
      else Resolved.mk p None MT_Unmatched
  end.

(** ** Sample tables, for the statements at concrete inputs *)

Module Sample.

Definition members : list Member.t :=
  [ Member.mk (Some 1%Z) (Some "John Smith") "Badminton" "Yes" "john smith";
    Member.mk (Some 2%Z) (Some "Alice Jones") "Tennis" "No" "alice jones";
    Member.mk (Some 3%Z) (Some "Bob Brown") "Squash" "Yes" "bob brown" ].

Definition payments : list Payment.t :=
  [ Payment.mk (Some 1%Z) (Some "John Smith") 50 "2024-01-02" "john smith";
    Payment.mk None (Some "Jon Smith") 70 "2024-01-01" "jon smith";
    Payment.mk (Some 2%Z) (Some "alice jones") 120 "2024-01-05" "alice jones";
    Payment.mk None (Some "Zed Quux") 3 "2024-01-06" "zed quux" ].

(** Two obligated payers with the same identifier and the same normalised
    name. *)
Definition twin_members : list Member.t :=
  [ Member.mk (Some 7%Z) (Some "Ann Lee") "Badminton" "Yes" "ann lee";
    Member.mk (Some 7%Z) (Some "Ann  Lee") "Tennis" "Yes" "ann lee" ].

Definition twin_payments : list Payment.t :=
  [ Payment.mk (Some 7%Z) (Some "Ann Lee") 50 "2024-02-01" "ann lee";
    Payment.mk None (Some "Ann Lee") 70 "2024-02-02" "ann lee" ].

(** The rows of [selected_players] that the code returns for them. *)
Definition john : Player.t :=
  Player.mk (Member.mk (Some 1%Z) (Some "John Smith") "Badminton" "Yes"
                       "john smith")
            120 Paid 0 (Some "2024-01-01").

Definition ann_first : Player.t :=
  Player.mk (Member.mk (Some 7%Z) (Some "Ann Lee") "Badminton" "Yes" "ann lee")
            120 Paid 0 (Some "2024-02-02").

Definition ann_second : Player.t :=
  Player.mk (Member.mk (Some 7%Z) (Some "Ann  Lee") "Tennis" "Yes" "ann lee")
            0 Unpaid 120 None.

End Sample.

(** ** Vocabulary of the statements about [difflib] *)

Module DifflibSpec.
Import Difflib.
Local Open Scope nat_scope.

Section Blocks.
Context `{Countable A}.

(** [a[i:i+k] == b[j:j+k]], both slices inside the sequences. *)
Definition match_at (a b : list A) (i j k : nat) : Prop :=
  ∀ t, t < k → ∃ x, a !! (i + t) = Some x ∧ b !! (j + t) = Some x.

(** The block [m] is a matching block inside [a[alo:ahi]] and [b[blo:bhi]]. *)
Definition block_in (a b : list A) (alo ahi blo bhi : nat) (m : Match) : Prop :=
  alo ≤ m.1.1 ∧ m.1.1 + m.2 ≤ ahi ∧ blo ≤ m.1.2 ∧ m.1.2 + m.2 ≤ bhi
  ∧ match_at a b m.1.1 m.1.2 m.2.

(** What [j2len] records while row [i] is about to be read: a block that
    ends just before row [i] and just after column [j]. *)
Definition j2len_ok (a b : list A) (alo blo bhi i : nat)
    (j2len : gmap nat nat) : Prop :=
  ∀ j k, j2len !! j = Some k →
    ∃ si sj, si + k = i ∧ sj + k = S j ∧ alo ≤ si ∧ blo ≤ sj ∧ j < bhi
             ∧ 1 ≤ k ∧ match_at a b si sj k.

(** [l[lo:hi]]. *)
Definition slice (l : list A) (lo hi : nat) : list A := take (hi - lo) (drop lo l).

(** Every position listed under [x] in [b2j] holds [x] in [b]. *)
Definition b2j_sound (b : list A) (b2j : gmap A (list nat)) : Prop :=
  ∀ x js j, b2j !! x = Some js → j ∈ js → b !! j = Some x.

(** A region of the queue lies inside the two sequences. *)
Definition region_ok (a b : list A) (r : nat * nat * nat * nat) : Prop :=
  r.1.1.1 ≤ r.1.1.2 ∧ r.1.1.2 ≤ length a ∧ r.1.2 ≤ r.2 ∧ r.2 ≤ length b.

(** The elements of [a] and of [b] that the regions of a queue cover. *)
Definition queue_a (a : list A) (queue : list (nat * nat * nat * nat)) : list A :=
  queue ≫= (fun r => slice a r.1.1.1 r.1.1.2).

Definition queue_b (b : list A) (queue : list (nat * nat * nat * nat)) : list A :=
  queue ≫= (fun r => slice b r.1.2 r.2).

(** The bound on the passes of the queue loop that a queue still needs. *)
Definition queue_measure (queue : list (nat * nat * nat * nat)) : nat :=
  foldr (fun r acc => 2 * (r.1.1.2 - r.1.1.1) + 1 + acc) 0 queue.

(** The total size of a list of blocks, as [ratio()] sums it. *)
Definition blocks_size (blocks : list Match) : nat :=
  foldr (fun (triple : Match) acc => triple.2 + acc) 0 blocks.

(** The number of matches that [quick_ratio()] counts. *)
Definition quick_matches (a b : list A) : nat :=
  (fold_left (quick_step (fullbcount b)) a (∅, 0)).2.

End Blocks.

(** The order of the tuples [(score, x)] under which [max] picks its
    result: by score, and by name among equal scores. *)
Definition tuple_le (s t : Q * string) : Prop :=
  (s.1 < t.1)%Q ∨ ((s.1 == t.1)%Q ∧ (s.2 ≤ t.2)%string).

End DifflibSpec.

(** ** Vocabulary of further statements *)

(** The obligated payers of the payer table. *)
Definition obligated (members_df : list Member.t) : list Member.t :=
  filter (fun m => Member.IsSelectedOfficialTeam m = "Yes") members_df.

(** The row credited with a payment, by whichever pass. *)
Definition target (selected : list Player.t) (p : Payment.t) : option nat :=
  match exact_target selected p with
  | Some k => Some k
  | None => fuzzy_target selected p
  end.

(** The suggestion that the second loop appends for a payment, if any. *)
Definition suggestion_of (selected : list Player.t) (p : Payment.t)
    : option Suggestion.t :=
  match exact_target selected p with
  | Some _ => None
  | None =>
      let name := normalize_name (Payment.FullName p) in
      matched_name ← fuzzy_name selected name;
      hit ← list_find (fun pl => Player.NormalizedName pl = matched_name) selected;
      if decide (name ≠ matched_name)
      then Some (Suggestion.mk (Payment.FullName p) (Player.FullName hit.2))
      else None
  end.

(** The four input columns of a payment. *)
Definition payment_columns (p : Payment.t)
    : option Z * option string * Q * string :=
  (Payment.StudentID p, Payment.FullName p, Payment.Amount p,
   Payment.PaymentDate p).

Definition resolved_row_columns (rr : ResolvedRow)
    : option Z * option string * Q * string :=
  (rr_StudentID rr, rr_FullName rr, rr_Amount rr, rr_PaymentDate rr).

(** * Properties *)

(** ** [normalize_name] *)

Section NormalizeName.
Import PyStr.

Lemma replace_double_space_cons2 c d r :
  replace_double_space (String c (String d r))
  = if (Ascii.eqb c " " && Ascii.eqb d " ")%bool
    then String " " (replace_double_space r)
    else String c (replace_double_space (String d r)).
Proof. reflexivity. Qed.

Lemma replace_double_space_head s :
  head_char (replace_double_space s) = head_char s.
Proof.
  destruct s as [|c [|d r]]; try reflexivity.
  rewrite replace_double_space_cons2.
  destruct (Ascii.eqb c " " && Ascii.eqb d " ")%bool eqn:E; [|reflexivity].
  apply andb_prop in E as [Ec _]. apply Ascii.eqb_eq in Ec. by subst.
Qed.

Lemma has_double_space_cons c s :
  has_double_space (String c s)
  = match head_char s with
    | Some d => (Ascii.eqb c " " && Ascii.eqb d " ") || has_double_space s
    | None => false
    end.
Proof. by destruct s. Qed.

Lemma has_triple_space_cons3 c d e r :
  has_triple_space (String c (String d (String e r)))
  = (Ascii.eqb c " " && Ascii.eqb d " " && Ascii.eqb e " ")
    || has_triple_space (String d (String e r)).
Proof. reflexivity. Qed.

Lemma has_triple_space_tail c s :
  has_triple_space (String c s) = false → has_triple_space s = false.
Proof.
  destruct s as [|d [|e r]]; try reflexivity.
  rewrite has_triple_space_cons3. by intros [_ ?]%orb_false_elim.
Qed.

(** Induction on strings that follows the scan of [replace_double_space]:
    it advances by one or by two characters. *)
Lemma string_scan_ind (P : string → Prop) :
  (∀ n, (∀ s, (String.length s < n)%nat → P s) →
        ∀ s, String.length s = n → P s) →
  ∀ s, P s.
Proof.
  intros Hstep s. remember (String.length s) as n eqn:Hn.
  revert s Hn. induction (lt_wf n) as [n _ IH]. intros s ->.
  apply (Hstep (String.length s)); [|reflexivity].
  intros s' Hlt. by apply (IH (String.length s')).
Qed.

(** A single scan leaves no double space behind when no run of three spaces
    was there. *)
Lemma replace_double_space_clean s :
  has_triple_space s = false →
  has_double_space (replace_double_space s) = false.
Proof.
  induction s as [n IH s Hlen] using string_scan_ind. intros Htri.
  destruct s as [|c [|d r]]; try reflexivity.
  rewrite replace_double_space_cons2.
  destruct (Ascii.eqb c " " && Ascii.eqb d " ")%bool eqn:E;
    rewrite has_double_space_cons, replace_double_space_head.
  - apply andb_prop in E as [Ec Ed].
    destruct r as [|e r']; [reflexivity|].
    cbn [head_char].
    rewrite has_triple_space_cons3, Ec, Ed in Htri.
    apply orb_false_elim in Htri as [He Htri]. simpl in He.
    rewrite He, andb_false_r. cbn [orb].
    apply IH; [simpl in *; lia|].
    by apply has_triple_space_tail in Htri.
  - cbn [head_char]. rewrite E. cbn [orb].
    apply IH; [simpl in *; lia|].
    by apply has_triple_space_tail in Htri.
Qed.

Lemma replace_double_space_last s :
  last_char (replace_double_space s) = last_char s.
Proof.
  induction s as [n IH s Hlen] using string_scan_ind.
  destruct s as [|c [|d r]]; try reflexivity.
  rewrite replace_double_space_cons2.
  destruct (Ascii.eqb c " " && Ascii.eqb d " ")%bool eqn:E.
  - apply andb_prop in E as [Ec%Ascii.eqb_eq Ed%Ascii.eqb_eq]. subst c d.
    cbn [last_char]. rewrite IH by (simpl in *; lia).
    by destruct (last_char r).
  - cbn [last_char]. rewrite IH by (simpl in *; lia). reflexivity.
Qed.

Lemma replace_double_space_all P s :
  string_all P s = true → string_all P (replace_double_space s) = true.
Proof.
  induction s as [n IH s Hlen] using string_scan_ind. intros Hall.
  destruct s as [|c [|d r]]; try done.
  rewrite replace_double_space_cons2.
  cbn [string_all] in Hall.
  apply andb_prop in Hall as [Hc Hr]. 
  destruct (Ascii.eqb c " " && Ascii.eqb d " ")%bool eqn:E.
  - apply andb_prop in E as [Ec%Ascii.eqb_eq Ed%Ascii.eqb_eq]. subst c d.
    cbn [string_all]. rewrite Hc. apply andb_prop in Hr as [_ Hr].
    apply IH; [simpl in *; lia | done].
  - cbn [string_all]. rewrite Hc. apply IH; [simpl in *; lia | done].
Qed.

Lemma lstrip_all P s : string_all P s = true → string_all P (lstrip s) = true.
Proof.
  induction s as [|c r IH]; [done|]. simpl. intros [Hc Hr]%andb_prop.
  destruct (isspace c); [by apply IH|]. simpl. by rewrite Hc, Hr.
Qed.

Lemma rstrip_all P s : string_all P s = true → string_all P (rstrip s) = true.
Proof.
  induction s as [|c r IH]; [done|]. simpl. intros [Hc Hr]%andb_prop.
  specialize (IH Hr). destruct (rstrip r) as [|d r'].
  - destruct (isspace c); simpl; [done | by rewrite Hc].
  - cbn [string_all] in *. by rewrite Hc, IH.
Qed.

Lemma lower_char_not_upper c : is_upper (lower_char c) = false.
Proof. by destruct c as [[] [] [] [] [] [] [] []]. Qed.

Lemma lower_all_lower s :
  string_all (fun c => negb (is_upper c)) (lower s) = true.
Proof.
  induction s as [|c r IH]; [done|]. simpl.
  by rewrite lower_char_not_upper, IH.
Qed.

Lemma lstrip_head s c : head_char (lstrip s) = Some c → isspace c = false.
Proof.
  induction s as [|d r IH]; [done|]. simpl.
  destruct (isspace d) eqn:E; [done|]. simpl. by intros [= <-].
Qed.

Lemma rstrip_head s c :
  head_char (rstrip s) = Some c → head_char s = Some c.
Proof.
  destruct s as [|d r]; [done|]. simpl.
  destruct (rstrip r); [destruct (isspace d)|]; done.
Qed.

Lemma rstrip_last s c : last_char (rstrip s) = Some c → isspace c = false.
Proof.
  induction s as [|d r IH]; [done|]. simpl.
  destruct (rstrip r) as [|e r'] eqn:E.
  - destruct (isspace d) eqn:Ed; [done|]. simpl. by intros [= <-].
  - cbn [last_char] in *. destruct (last_char r') as [x|] eqn:El.
    + intros [= <-]. by apply IH.
    + intros [= <-]. by apply IH.
Qed.

Lemma strip_head s c : head_char (strip s) = Some c → isspace c = false.
Proof. intros Hh%rstrip_head. by apply lstrip_head in Hh. Qed.

(** C4, counterexample: a run of three spaces inside a name is shortened to
    two spaces, so the result of [normalize_name] can still contain two
    consecutive spaces. *)
Lemma normalize_name_leaves_double_space :
  normalize_name (Some "a   b") = "a  b"
  ∧ has_double_space (normalize_name (Some "a   b")) = true.
Proof. split; reflexivity. Qed.

(** C4, amended: [normalize_name] of an absent name is the empty string; of a
    string [s] it is the lower-cased, whitespace-trimmed [s] after one
    left-to-right replacement of each pair of spaces by one space. The result
    has no upper-case character and neither starts nor ends with whitespace;
    it has no two consecutive spaces whenever the trimmed string has no run
    of three spaces. *)
Theorem normalize_name_spec (name : option string) :
  match name with
  | None => normalize_name name = ""
  | Some s =>
      let trimmed := strip (lower s) in
      normalize_name name = replace_double_space trimmed
      ∧ string_all (fun c => negb (is_upper c)) (normalize_name name) = true
      ∧ (∀ c, head_char (normalize_name name) = Some c → isspace c = false)
      ∧ (∀ c, last_char (normalize_name name) = Some c → isspace c = false)
      ∧ (has_triple_space trimmed = false →
         has_double_space (normalize_name name) = false)
  end.
Proof.
  destruct name as [s|]; [|reflexivity].
  cbn zeta. unfold normalize_name. split_and!.
  - reflexivity.
  - apply replace_double_space_all, rstrip_all, lstrip_all, lower_all_lower.
  - intros c. rewrite replace_double_space_head. apply strip_head.
  - intros c. rewrite replace_double_space_last. apply rstrip_last.
  - apply replace_double_space_clean.
Qed.

(** The amended statement at a name with doubled spaces only. *)
Lemma normalize_name_spec_witness :
  has_triple_space (strip (lower "  John  SMITH ")) = false
  ∧ has_double_space (normalize_name (Some "  John  SMITH ")) = false.
Proof.
  split; [reflexivity|].
  apply (normalize_name_spec (Some "  John  SMITH ")). reflexivity.
Defined.

End NormalizeName.

(** ** Comparisons on [Q] *)

Lemma Qgeb_true x y : Qgeb x y = true ↔ (y <= x)%Q.
Proof. apply Qle_bool_iff. Qed.

Lemma Qgtb_true x y : Qgtb x y = true ↔ (y < x)%Q.
Proof.
  unfold Qgtb. rewrite negb_true_iff, <- not_true_iff_false, Qle_bool_iff.
  split; [apply Qnot_le_lt | apply Qlt_not_le].
Qed.

(** ** [validate_external_bookings] *)





(** Scenario D of the specification: 3 hours at rate 5, 10 paid. *)
Example validate_external_bookings_scenario_D :
  let b := Booking.mk "B1" (Some "Ann") "2024-01-01 10:00" 3 10 "ann"
                      None None None in
  validate_external_bookings [b] = ([annotate b], [annotate b])
  ∧ Booking.Expected (annotate b) = Some 15%float
  ∧ Booking.Underpaid (annotate b) = Some true
  ∧ Booking.MissingPayment (annotate b) = Some false.
Proof. split_and!; reflexivity. Qed.

(** A blank [AmountPaid] is read as a NaN, which no comparison holds of: the
    booking gets neither flag and is not among the issues. *)
Example validate_external_bookings_blank_amount :
  let b := Booking.mk "B2" (Some "Bob") "2024-01-02 10:00" 2 nan "bob"
                      None None None in
  validate_external_bookings [b] = ([annotate b], [])
  ∧ Booking.Underpaid (annotate b) = Some false
  ∧ Booking.MissingPayment (annotate b) = Some false.
Proof. split_and!; reflexivity. Qed.

(** ** [generate_summary]: the mismatch rate *)

Lemma Qnat_eq_bool_0 n : Qeq_bool (Qnat n) 0 = (n =? 0)%nat.
Proof. by destruct n. Qed.

Lemma mismatch_rate_eq (underpaid_count unpaid_count total_selected : nat) :
  mismatch_rate underpaid_count unpaid_count total_selected
  = Ok (if (total_selected =? 0)%nat then 0
        else Qnat (underpaid_count + unpaid_count) / Qnat total_selected * 100)%Q.
Proof.
  unfold mismatch_rate, py_div. destruct total_selected as [|t]; [reflexivity|].
  change (0 <? S t)%nat with true. cbn iota.
  rewrite Qnat_eq_bool_0. reflexivity.
Qed.

(** C8: with the accounts of status [Underpaid] and of status [Unpaid]
    counted in the table itself, the mismatch rate that the summary prints
    is [(Underpaid + Unpaid) / total * 100] when there are obligated payers
    and [0] when there are none; [generate_summary] returns its text
    without raising, whatever the tables, and the text shows the three
    counts under the total and then that rate. *)
Theorem generate_summary_mismatch_rate (fmt_1f fmt_2f : Q → string)
    (now : datetime) (selected : list Player.t)
    (paid_not_selected : list Payment.t) (unmatched_payments : list Resolved.t)
    (external_df external_issues : list Booking.t) :
  let total := length selected in
  let paid :=
    length (filter (fun pl => Player.PaidStatus pl = Paid) selected) in
  let underpaid :=
    length (filter (fun pl => Player.PaidStatus pl = Underpaid) selected) in
  let unpaid :=
    length (filter (fun pl => Player.PaidStatus pl = Unpaid) selected) in
  let rate := (if (total =? 0)%nat then 0
               else Qnat (underpaid + unpaid) / Qnat total * 100)%Q in
  ∃ after : string,
    generate_summary fmt_1f fmt_2f now selected paid_not_selected
      unmatched_payments external_df external_issues
    = Ok ("NTU Sports - Membership & Bookings Reconciliation" +:+ nl
          +:+ "Generated: " +:+ strftime now +:+ nl
          +:+ nl +:+ "MEMBERSHIP SUMMARY:" +:+ nl
          +:+ "Total selected members: " +:+ pretty total +:+ nl
          +:+ "- Paid in full: " +:+ pretty paid +:+ nl
          +:+ "- Underpaid: " +:+ pretty underpaid +:+ nl
          +:+ "- Unpaid: " +:+ pretty unpaid +:+ nl
          +:+ "Mismatch rate: " +:+ fmt_1f rate +:+ "%" +:+ after).
Proof.
  cbv zeta. unfold generate_summary. rewrite mismatch_rate_eq.
  cbn [mbind result_bind]. unfold summary_body, count_status.
  eexists. reflexivity.
Qed.

(** Scenario E of the specification: no obligated payer at all. *)
Example generate_summary_scenario_E (fmt_1f fmt_2f : Q → string) (now : datetime) :
  mismatch_rate 0 0 0 = Ok 0%Q
  ∧ is_Some (match generate_summary fmt_1f fmt_2f now [] [] [] [] [] with
             | Ok s => Some s
             | Raise _ => None
             end).
Proof. split; [reflexivity | by eexists]. Qed.

(** ** Payment status *)

Lemma status_of_Paid q : status_of q = Paid ↔ (ANNUAL_FEE <= q)%Q.
Proof.
  unfold status_of. rewrite <- Qgeb_true.
  destruct (Qgeb q ANNUAL_FEE); [done|].
  destruct (Qgtb q 0); split; done.
Qed.

Lemma status_of_Underpaid q :
  status_of q = Underpaid ↔ (0 < q)%Q ∧ (q < ANNUAL_FEE)%Q.
Proof.
  unfold status_of. rewrite <- Qgtb_true.
  destruct (Qgeb q ANNUAL_FEE) eqn:Efee.
  - apply Qgeb_true in Efee. split; [done|].
    intros [_ Hlt]. by apply Qlt_not_le in Hlt.
  - assert (q < ANNUAL_FEE)%Q.
    { apply Qnot_le_lt. intros Hle. apply Qgeb_true in Hle. congruence. }
    destruct (Qgtb q 0); split; try done. by intros [? _].
Qed.

Lemma status_of_Unpaid q : status_of q = Unpaid ↔ (q <= 0)%Q.
Proof.
  unfold status_of.
  destruct (Qgeb q ANNUAL_FEE) eqn:Efee.
  - apply Qgeb_true in Efee. split; [done|]. intros Hle.
    assert (ANNUAL_FEE <= 0)%Q as Hbad by (by apply (Qle_trans _ q)).
    by vm_compute in Hbad.
  - destruct (Qgtb q 0) eqn:Epos.
    + apply Qgtb_true in Epos. split; [done|].
      intros Hle. by apply Qlt_not_le in Epos.
    + split; [|done]. intros _. apply Qnot_lt_le. intros Hlt.
      apply Qgtb_true in Hlt. congruence.
Qed.

(** C5, counterexample: a single obligated payer whose only matched payment
    is a refund of 10 ends with [PaidAmount = -10], which is not zero, and
    status [Unpaid]. *)
Lemma status_Unpaid_with_nonzero_amount :
  let members := [Member.mk (Some 3%Z) (Some "Bob Brown") "A" "Yes" "bob brown"] in
  let payments := [Payment.mk (Some 3%Z) (Some "Bob Brown") (-10) "2024-03-01"
                              "bob brown"] in
  ∃ pl, r_selected_players (reconcile_memberships members payments) = [pl]
        ∧ Player.PaidStatus pl = Unpaid
        ∧ (Player.PaidAmount pl == -10)%Q
        ∧ ¬ (Player.PaidAmount pl == 0)%Q.
Proof.
  eexists. split; [vm_compute; reflexivity|]. cbn.
  split_and!; [reflexivity | reflexivity | discriminate].
Qed.

(** C5, amended: in the table that [reconcile_memberships] returns, the
    status of every account is determined by its [PaidAmount] and the fee:
    [Paid] exactly when [PaidAmount >= fee], [Underpaid] exactly when
    [0 < PaidAmount < fee], and [Unpaid] exactly when [PaidAmount <= 0]
    (zero or negative). *)
Theorem reconcile_status_spec (members_df : list Member.t)
    (payments_df : list Payment.t) :
  Forall (fun pl =>
      Player.PaidStatus pl = status_of (Player.PaidAmount pl)
      ∧ (Player.PaidStatus pl = Paid ↔ (ANNUAL_FEE <= Player.PaidAmount pl)%Q)
      ∧ (Player.PaidStatus pl = Underpaid
         ↔ (0 < Player.PaidAmount pl)%Q ∧ (Player.PaidAmount pl < ANNUAL_FEE)%Q)
      ∧ (Player.PaidStatus pl = Unpaid ↔ (Player.PaidAmount pl <= 0)%Q))
    (r_selected_players (reconcile_memberships members_df payments_df)).
Proof.
  unfold reconcile_memberships. cbn [r_selected_players].
  rewrite Forall_fmap. apply Forall_forall. intros pl _. cbn.
  split_and!; [reflexivity | apply status_of_Paid | apply status_of_Underpaid
              | apply status_of_Unpaid].
Qed.

(** ** Determinism of a run *)


Lemma generate_summary_eq fmt_1f fmt_2f now selected pns unm ext iss :
  ∃ body,
    (∀ t, generate_summary fmt_1f fmt_2f t selected pns unm ext iss
          = Ok ("NTU Sports - Membership & Bookings Reconciliation" +:+ nl
                +:+ "Generated: " +:+ strftime t +:+ body))
    ∧ generate_summary fmt_1f fmt_2f now selected pns unm ext iss
      = Ok ("NTU Sports - Membership & Bookings Reconciliation" +:+ nl
            +:+ "Generated: " +:+ strftime now +:+ body).
Proof.
  unfold generate_summary. rewrite mismatch_rate_eq. cbn [mbind result_bind].
  eexists. split; [intros t|]; reflexivity.
Qed.



(** The rendered clock reading: 19 characters, and no two readings alike. *)












(** ** The third loop: [paid_not_selected] *)

Lemma elem_of_all_member_ids (members_df : list Member.t) (sid : Z) :
  sid ∈ all_member_ids members_df
  ↔ ∃ m, m ∈ members_df ∧ Member.StudentID m = Some sid.
Proof.
  unfold all_member_ids. rewrite elem_of_list_to_set, list_elem_of_omap.
  done.
Qed.

(** The flag is set exactly for a payment of a known person: its identifier
    is that of a member, or its name is present and normalises to the
    normalised name of a member. *)
Lemma payment_matched_true (members_df : list Member.t) (payment : Payment.t) :
  payment_matched members_df payment = true
  ↔ (∃ m sid, m ∈ members_df ∧ Payment.StudentID payment = Some sid
              ∧ Member.StudentID m = Some sid)
    ∨ (∃ m, m ∈ members_df ∧ is_Some (Payment.FullName payment)
            ∧ Member.NormalizedName m
              = normalize_name (Payment.FullName payment)).
Proof.
  unfold payment_matched.
  destruct (Payment.StudentID payment) as [sid|] eqn:Esid.
  - destruct (bool_decide (sid ∈ all_member_ids members_df)) eqn:Eid.
    + apply bool_decide_eq_true in Eid. split; [|done]. intros _. left.
      apply elem_of_all_member_ids in Eid as (m & Hm & Hsid). by exists m, sid.
    + apply bool_decide_eq_false in Eid.
      destruct (Payment.FullName payment) as [name|] eqn:Ename.
      * rewrite bool_decide_eq_true, list_elem_of_fmap. split.
        -- intros (m & Hn & Hm). right. by exists m.
        -- intros [(m & sid' & Hm & [= <-] & Hs) | (m & Hm & _ & Hn)].
           ++ exfalso. apply Eid, elem_of_all_member_ids. by exists m.
           ++ by exists m.
      * split; [done|].
        intros [(m & sid' & Hm & [= <-] & Hs) | (m & Hm & [? [=]] & Hn)].
        exfalso. apply Eid, elem_of_all_member_ids. by exists m.
  - destruct (Payment.FullName payment) as [name|] eqn:Ename.
    + rewrite bool_decide_eq_true, list_elem_of_fmap. split.
      * intros (m & Hn & Hm). right. by exists m.
      * intros [(m & sid' & _ & [=] & _) | (m & Hm & _ & Hn)]. by exists m.
    + split; [done|].
      by intros [(m & sid' & _ & [=] & _) | (m & Hm & [? [=]] & Hn)].
Qed.

(** What the third loop collects: the payments left over by both passes
    that match no member at all, neither by identifier nor by name. *)
Lemma find_paid_not_selected_spec (members_df : list Member.t)
    (matched : gset nat) (payments_df : list Payment.t) (payment : Payment.t) :
  payment ∈ find_paid_not_selected members_df matched payments_df
  ↔ ∃ idx, payments_df !! idx = Some payment ∧ (idx ∉ matched)
           ∧ payment_matched members_df payment = false.
Proof.
  unfold find_paid_not_selected, iterrows.
  rewrite list_elem_of_fmap. split.
  - intros ([idx p] & -> & Hin). apply list_elem_of_filter in Hin as [[Hm Hp] Hin].
    apply list_elem_of_lookup in Hin as [k Hk].
    rewrite list_lookup_imap in Hk.
    destruct (payments_df !! k) as [p'|] eqn:Ek; [|done].
    injection Hk as <- <-. by exists k.
  - intros (idx & Hidx & Hm & Hp). exists (idx, payment). split; [done|].
    apply list_elem_of_filter. split; [done|].
    apply list_elem_of_lookup. exists idx.
    by rewrite list_lookup_imap, Hidx.
Qed.

(** C1, the code at the failing input (scenario C of the specification):
    Alice Jones is a member who is not selected; her payment matches her by
    identifier and by normalised name and is consumed by neither pass, yet
    [paid_not_selected] is empty, while the payment of a stranger, which
    matches nobody, is what the list holds. *)
Theorem paid_not_selected_misses_known_payer :
  let members := [Member.mk (Some 1%Z) (Some "John Smith") "A" "Yes" "";
                  Member.mk (Some 2%Z) (Some "Alice Jones") "B" "No" ""] in
  let alice := Payment.mk (Some 2%Z) (Some "Alice Jones") 120 "2024-02-01" "" in
  let stranger := Payment.mk None (Some "Zed Quux") 120 "2024-02-02" "" in
  let '(members_df, payments_df, _) :=
    load_and_preprocess_data members [alice; stranger] [] in
  let r := reconcile_memberships members_df payments_df in
  payment_matched members_df (Payment.with_NormalizedName "alice jones" alice)
    = true
  ∧ Resolved.MatchType <$> r_resolved_payments r = [MT_Unmatched; MT_Unmatched]
  ∧ r_paid_not_selected r = [Payment.with_NormalizedName "zed quux" stranger].
Proof. vm_compute. split_and!; reflexivity. Qed.

(** ** The two matching passes *)

Section Passes.
Implicit Types (sel pls : list Player.t) (ps : list Payment.t).
Implicit Types (p : Payment.t) (pl : Player.t) (k idx : nat).

Lemma alter_credit_member p k pls :
  Player.member <$> alter (credit p) k pls = Player.member <$> pls.
Proof.
  apply list_eq. intros i. rewrite !list_lookup_fmap.
  destruct (decide (k = i)) as [->|Hne].
  - rewrite list_lookup_alter_eq. by destruct (pls !! i).
  - by rewrite list_lookup_alter_ne.
Qed.

Lemma lookup_same_member pls sel k pl :
  Player.member <$> pls = Player.member <$> sel →
  pls !! k = Some pl →
  ∃ pl0, sel !! k = Some pl0 ∧ Player.member pl0 = Player.member pl.
Proof.
  intros Hm Hk. apply (f_equal (fun l => l !! k)) in Hm.
  rewrite !list_lookup_fmap, Hk in Hm.
  destruct (sel !! k) as [pl0|]; [|done]. exists pl0. by injection Hm as ->.
Qed.

(** A search by a property of the member columns finds the same position in
    two tables with the same member columns. *)
Lemma find_by_member (P : Member.t → Prop) `{!∀ m, Decision (P m)} pls sel :
  Player.member <$> pls = Player.member <$> sel →
  fst <$> list_find (fun pl => P (Player.member pl)) pls
  = fst <$> list_find (fun pl => P (Player.member pl)) sel.
Proof.
  intros Hm.
  assert (Hfm : ∀ l : list Player.t,
             fst <$> list_find (fun pl => P (Player.member pl)) l
             = fst <$> list_find P (Player.member <$> l)).
  { intros l. rewrite list_find_fmap.
    rewrite (list_find_ext (fun pl => P (Player.member pl))
                           (P ∘ Player.member)) by done.
    by destruct (list_find (P ∘ Player.member) l) as [[??]|]. }
  by rewrite !Hfm, Hm.
Qed.

Lemma find_by_StudentID sid pls sel :
  Player.member <$> pls = Player.member <$> sel →
  fst <$> list_find (fun pl => Player.StudentID pl = Some sid) pls
  = fst <$> list_find (fun pl => Player.StudentID pl = Some sid) sel.
Proof.
  intros Hm.
  exact (find_by_member (fun m => Member.StudentID m = Some sid) pls sel Hm).
Qed.

Lemma find_by_NormalizedName n pls sel :
  Player.member <$> pls = Player.member <$> sel →
  fst <$> list_find (fun pl => Player.NormalizedName pl = n) pls
  = fst <$> list_find (fun pl => Player.NormalizedName pl = n) sel.
Proof.
  intros Hm.
  exact (find_by_member (fun m => Member.NormalizedName m = n) pls sel Hm).
Qed.

Lemma found_row_id (P : Player.t → Prop) `{!∀ pl, Decision (P pl)} pls sel k pl :
  Player.member <$> pls = Player.member <$> sel →
  list_find P pls = Some (k, pl) →
  pls !! k = Some pl ∧ Player.StudentID pl = row_id sel k
  ∧ ∃ pl0, sel !! k = Some pl0 ∧ Player.FullName pl = Player.FullName pl0.
Proof.
  intros Hm (Hk & _ & _)%list_find_Some. split; [done|].
  destruct (lookup_same_member _ _ _ _ Hm Hk) as (pl0 & Hk0 & Hmem).
  split.
  - unfold row_id, Player.StudentID. rewrite Hk0. simpl. by rewrite Hmem.
  - exists pl0. unfold Player.FullName. by rewrite Hmem.
Qed.

(** *** The first pass *)

Lemma exact_pass_snoc sel ps p :
  exact_pass sel (ps ++ [p]) = exact_step (exact_pass sel ps) (length ps, p).
Proof.
  unfold exact_pass, iterrows. rewrite imap_app, fold_left_app. simpl.
  by rewrite Nat.add_0_r.
Qed.

Lemma credit_all_snoc l p pl : credit_all (l ++ [p]) pl = credit p (credit_all l pl).
Proof. unfold credit_all. by rewrite fold_left_app. Qed.

Lemma exact_matches_snoc sel ps p k :
  exact_matches sel (ps ++ [p]) k
  = exact_matches sel ps k
    ++ (if decide (exact_target sel p = Some k) then [p] else []).
Proof.
  unfold exact_matches. by rewrite filter_app.
Qed.

(** The entry of the audit trail after the first pass alone. *)
Lemma exact_pass_spec sel ps :
  let st := exact_pass sel ps in
  Player.member <$> selected_players st = Player.member <$> sel
  ∧ (∀ k, selected_players st !! k
          = credit_all (exact_matches sel ps k) <$> sel !! k)
  ∧ (∀ idx, idx ∈ matched_payment_indices st
            ↔ ∃ p, ps !! idx = Some p ∧ is_Some (exact_target sel p))
  ∧ resolved_payments st
    = (fun p => match exact_target sel p with
                | Some k => Resolved.mk p (row_id sel k) MT_StudentID
                | None => Resolved.mk p None MT_Unmatched
                end) <$> ps
  ∧ fuzzy_suggestions st = [].
Proof.
  induction ps as [|p ps IH] using rev_ind.
  { cbn. split_and!; try done.
    - intros k. by destruct (sel !! k).
    - intros idx. split; [set_solver | by intros (? & ? & _)]. }
  cbn zeta in *. rewrite exact_pass_snoc.
  destruct IH as (Hm & Hl & Hi & Hr & Hs).
  set (st := exact_pass sel ps) in *.
  unfold exact_step.
  set (hit := match Payment.StudentID p with
              | Some sid => list_find _ (selected_players st)
              | None => None
              end).
  assert (Hhit : fst <$> hit = exact_target sel p).
  { unfold hit, exact_target. destruct (Payment.StudentID p); [|done].
    by apply find_by_StudentID. }
  assert (Hrow : ∀ k pl, hit = Some (k, pl) →
                         Player.StudentID pl = row_id sel k).
  { unfold hit. intros k pl Hf. destruct (Payment.StudentID p); [|done].
    by apply (found_row_id _ _ _ _ _ Hm) in Hf as (_ & ? & _). }
  destruct hit as [[k pl]|] eqn:Ehit; cbn in Hhit; symmetry in Hhit.
  - cbn [selected_players matched_payment_indices resolved_payments
         fuzzy_suggestions].
    split_and!.
    + by rewrite alter_credit_member.
    + intros k'. rewrite exact_matches_snoc, Hhit.
      case_decide as Hk; [injection Hk as <-|].
      * rewrite list_lookup_alter_eq, Hl.
        destruct (sel !! k); [|done]. cbn. by rewrite credit_all_snoc.
      * rewrite list_lookup_alter_ne by congruence.
        by rewrite Hl, app_nil_r.
    + intros idx. rewrite elem_of_union, elem_of_singleton, Hi. split.
      * intros [->|(q & Hq & Hsome)].
        -- exists p. rewrite lookup_app_r, Nat.sub_diag by done.
           split; [done|]. by rewrite Hhit.
        -- exists q. split; [|done]. by apply lookup_app_l_Some.
      * intros (q & Hq & Hsome).
        apply lookup_app_Some in Hq as [Hq|[Hlen Hq]]; [right; eauto|].
        left. apply list_lookup_singleton_Some in Hq as [Hq _]. lia.
    + rewrite fmap_app, Hr. cbn. rewrite Hhit. by rewrite (Hrow k pl).
    + done.
  - cbn [selected_players matched_payment_indices resolved_payments
         fuzzy_suggestions].
    split_and!.
    + done.
    + intros k'. rewrite exact_matches_snoc, Hhit.
      case_decide; [done|]. by rewrite app_nil_r.
    + intros idx. rewrite Hi. split.
      * intros (q & Hq & Hsome). exists q. split; [|done].
        by apply lookup_app_l_Some.
      * intros (q & Hq & Hsome).
        apply lookup_app_Some in Hq as [Hq|[Hlen Hq]]; [eauto|].
        apply list_lookup_singleton_Some in Hq as [_ <-].
        rewrite Hhit in Hsome. by destruct Hsome.
    + rewrite fmap_app, Hr. cbn. by rewrite Hhit.
    + done.
Qed.

(** *** The second pass *)

Lemma same_member_names pls sel :
  Player.member <$> pls = Player.member <$> sel →
  Player.NormalizedName <$> pls = Player.NormalizedName <$> sel.
Proof.
  intros Hm.
  change Player.NormalizedName with (Member.NormalizedName ∘ Player.member).
  by rewrite !list_fmap_compose, Hm.
Qed.

Lemma fuzzy_matches_snoc sel ps p k :
  fuzzy_matches sel (ps ++ [p]) k
  = fuzzy_matches sel ps k
    ++ (if decide (exact_target sel p = None ∧ fuzzy_target sel p = Some k)
        then [p] else []).
Proof. unfold fuzzy_matches. by rewrite filter_app. Qed.

Lemma fuzzy_seen_snoc sel seen p n :
  fuzzy_seen sel (seen ++ [p]) n
  ↔ fuzzy_seen sel seen n
    ∨ (exact_target sel p = None
       ∧ normalize_name (Payment.FullName p) = n
       ∧ is_Some (fuzzy_target sel p)).
Proof.
  unfold fuzzy_seen. rewrite Exists_app, Exists_cons, Exists_nil. tauto.
Qed.

(** What the search of the second loop finds in a table with the member
    columns of [sel]. *)
Lemma fuzzy_hit sel pls name :
  Player.member <$> pls = Player.member <$> sel →
  name ≠ "" →
  match Difflib.get_close_matches name (Player.NormalizedName <$> sel)
                                  FUZZY_CUTOFF with
  | matched_name :: _ =>
      match list_find (fun pl => Player.NormalizedName pl = matched_name) pls with
      | Some (k, pl) =>
          fuzzy_target_name sel name = Some k
          ∧ Player.StudentID pl = row_id sel k
      | None => fuzzy_target_name sel name = None
      end
  | [] => fuzzy_target_name sel name = None
  end.
Proof.
  intros Hm Hne. unfold fuzzy_target_name, fuzzy_name.
  destruct (decide (name = "")) as [|_]; [done|].
  destruct (Difflib.get_close_matches _ _ _) as [|m ms]; [done|]. cbn.
  rewrite <- (find_by_NormalizedName m pls sel Hm).
  destruct (list_find _ pls) as [[k pl]|] eqn:Ef; [|done].
  split; [done|]. by apply (found_row_id _ _ _ _ _ Hm) in Ef as (_ & ? & _).
Qed.

Lemma fuzzy_target_empty_name sel p :
  normalize_name (Payment.FullName p) = "" → fuzzy_target sel p = None.
Proof.
  intros Hn. unfold fuzzy_target, fuzzy_target_name, fuzzy_name.
  rewrite Hn. by destruct (decide ("" = "")).
Qed.

Lemma mark_fuzzy_partial_resolve sel seen p q k :
  exact_target sel p = None →
  fuzzy_target sel p = Some k →
  mark_fuzzy (normalize_name (Payment.FullName p)) (row_id sel k)
             (partial_resolve sel seen q)
  = partial_resolve sel (seen ++ [p]) q.
Proof.
  intros Hex Hfz. unfold partial_resolve, mark_fuzzy.
  destruct (exact_target sel q) as [kq|] eqn:Eq.
  { cbn. by rewrite decide_False by (by intros [_ ?]). }
  destruct (decide (fuzzy_seen sel seen (Payment.NormalizedName q))) as [Hs|Hs].
  - cbn. rewrite decide_False by (by intros [_ ?]).
    rewrite decide_True; [done|]. apply fuzzy_seen_snoc. by left.
  - cbn.
    destruct (decide (Payment.NormalizedName q
                      = normalize_name (Payment.FullName p))) as [Hn|Hn].
    + rewrite decide_True by done.
      rewrite decide_True.
      * rewrite Hn. unfold fuzzy_target in Hfz. by rewrite Hfz.
      * apply fuzzy_seen_snoc. right. by rewrite Hfz.
    + rewrite decide_False by (by intros [? _]).
      rewrite decide_False; [done|].
      intros [?|(_ & ? & _)]%fuzzy_seen_snoc; done.
Qed.

Lemma partial_resolve_unseen sel seen p q :
  (exact_target sel p = None → fuzzy_target sel p = None) →
  partial_resolve sel (seen ++ [p]) q = partial_resolve sel seen q.
Proof.
  intros Hnone. unfold partial_resolve.
  destruct (exact_target sel q); [done|].
  apply decide_ext. rewrite fuzzy_seen_snoc. split; [|tauto].
  intros [?|(Hex & _ & Hs)]; [done|]. rewrite (Hnone Hex) in Hs. by destruct Hs.
Qed.

Lemma fuzzy_pass_prefix_spec sel ps seen rest :
  ps = seen ++ rest →
  let st0 := exact_pass sel ps in
  let st := fold_left (fuzzy_step (Player.NormalizedName <$> sel))
                      (iterrows seen) st0 in
  Player.member <$> selected_players st = Player.member <$> sel
  ∧ (∀ k, selected_players st !! k
          = credit_all (fuzzy_matches sel seen k) <$> selected_players st0 !! k)
  ∧ (∀ idx, idx ∈ matched_payment_indices st
            ↔ idx ∈ matched_payment_indices st0
              ∨ ∃ p, seen !! idx = Some p ∧ exact_target sel p = None
                     ∧ is_Some (fuzzy_target sel p))
  ∧ resolved_payments st = partial_resolve sel seen <$> ps.
Proof.
  revert rest. induction seen as [|p seen IH] using rev_ind; intros rest Hps.
  { cbn zeta. destruct (exact_pass_spec sel ps) as (Hm & Hl & Hi & Hr & Hs).
    cbn [iterrows imap fold_left]. split_and!.
    - done.
    - intros k. by destruct (selected_players _ !! k).
    - intros idx. split; [by left|]. by intros [?|(? & ? & _)].
    - rewrite Hr. apply list_fmap_ext. intros _ q _. unfold partial_resolve.
      destruct (exact_target sel q); [done|].
      rewrite decide_False; [done|]. unfold fuzzy_seen. by intros ?%Exists_nil. }
  cbn zeta in *.
  specialize (IH (p :: rest)). rewrite <- app_assoc in Hps.
  destruct (IH Hps) as (Hm & Hl & Hi & Hr). clear IH.
  destruct (exact_pass_spec sel ps) as (Hm0 & Hl0 & Hi0 & Hr0 & Hs0).
  unfold iterrows. rewrite imap_app, fold_left_app. cbn [imap fold_left].
  rewrite Nat.add_0_r. fold (iterrows seen).
  set (st0 := exact_pass sel ps) in *.
  set (st := fold_left _ (iterrows seen) st0) in *.
  assert (Hidx : length seen ∈ matched_payment_indices st
                 ↔ is_Some (exact_target sel p)).
  { rewrite Hi, Hi0. split.
    - intros [(q & Hq & Hsome)|(q & Hq & _)].
      + rewrite Hps, lookup_app_r, Nat.sub_diag in Hq by done.
        by injection Hq as <-.
      + apply lookup_lt_Some in Hq. lia.
    - intros Hsome. left. exists p. split; [|done].
      by rewrite Hps, lookup_app_r, Nat.sub_diag. }
  assert (Hkeep :
    (exact_target sel p = None → fuzzy_target sel p = None) →
    Player.member <$> selected_players st = Player.member <$> sel
    ∧ (∀ k, selected_players st !! k
            = credit_all (fuzzy_matches sel (seen ++ [p]) k)
                <$> selected_players st0 !! k)
    ∧ (∀ idx, idx ∈ matched_payment_indices st
              ↔ idx ∈ matched_payment_indices st0
                ∨ ∃ q, (seen ++ [p]) !! idx = Some q ∧ exact_target sel q = None
                       ∧ is_Some (fuzzy_target sel q))
    ∧ resolved_payments st = partial_resolve sel (seen ++ [p]) <$> ps).
  { intros Hnone. split_and!.
    - done.
    - intros k. rewrite fuzzy_matches_snoc, decide_False, app_nil_r; [done|].
      intros [Hex Hfz]. by rewrite (Hnone Hex) in Hfz.
    - intros idx. rewrite Hi. split.
      + intros [?|(q & Hq & ?)]; [by left|]. right. exists q.
        split; [|done]. by apply lookup_app_l_Some.
      + intros [?|(q & Hq & Hex & Hfz)]; [by left|].
        apply lookup_app_Some in Hq as [Hq|[_ Hq]]; [right; eauto|].
        apply list_lookup_singleton_Some in Hq as [_ <-].
        rewrite (Hnone Hex) in Hfz. by destruct Hfz.
    - rewrite Hr. apply list_fmap_ext. intros _ q _.
      by rewrite partial_resolve_unseen. }
  unfold fuzzy_step.
  destruct (decide (length seen ∈ matched_payment_indices st)) as [Hin|Hnin].
  { apply Hkeep. apply Hidx in Hin as [? Hin]. by rewrite Hin. }
  assert (Hex : exact_target sel p = None).
  { destruct (exact_target sel p) eqn:E; [|done].
    exfalso. by apply Hnin, Hidx. }
  destruct (decide (normalize_name (Payment.FullName p) = "")) as [Hempty|Hname].
  { apply Hkeep. intros _. by apply fuzzy_target_empty_name. }
  pose proof (fuzzy_hit sel (selected_players st) _ Hm Hname) as Hhit.
  destruct (Difflib.get_close_matches _ _ _) as [|m ms]; [by apply Hkeep|].
  destruct (list_find _ (selected_players st)) as [[k pl]|];
    [|by apply Hkeep].
  destruct Hhit as [Hfz Hid].
  assert (Hfz' : fuzzy_target sel p = Some k) by done.
  cbn [selected_players matched_payment_indices resolved_payments].
  split_and!.
  - by rewrite alter_credit_member.
  - intros k'. rewrite fuzzy_matches_snoc.
    case_decide as Hk.
    + destruct Hk as [_ Hk]. rewrite Hfz' in Hk. injection Hk as <-.
      rewrite list_lookup_alter_eq, Hl.
      destruct (selected_players st0 !! k); [|done].
      cbn. by rewrite credit_all_snoc.
    + rewrite list_lookup_alter_ne by (intros <-; by apply Hk).
      by rewrite Hl, app_nil_r.
  - intros idx. rewrite elem_of_union, elem_of_singleton, Hi. split.
    + intros [->|[?|(q & Hq & ?)]]; [right|by left|right].
      * exists p. rewrite lookup_app_r, Nat.sub_diag by done.
        split_and!; [done..|]. by rewrite Hfz'.
      * exists q. split; [|done]. by apply lookup_app_l_Some.
    + intros [?|(q & Hq & ?)]; [by right; left|].
      apply lookup_app_Some in Hq as [Hq|[Hlen Hq]]; [right; right; eauto|].
      left. apply list_lookup_singleton_Some in Hq as [Hq _]. lia.
  - rewrite Hr, <- list_fmap_compose. apply list_fmap_ext. intros _ q _. cbn.
    rewrite Hid. by apply mark_fuzzy_partial_resolve.
Qed.

End Passes.

(** ** The result of [reconcile_memberships] *)

Section Reconcile.
Implicit Types (sel pls : list Player.t) (ps : list Payment.t).
Implicit Types (p : Payment.t) (pl : Player.t) (k idx : nat).

Lemma credit_all_app l1 l2 pl :
  credit_all (l1 ++ l2) pl = credit_all l2 (credit_all l1 pl).
Proof. unfold credit_all. by rewrite fold_left_app. Qed.

Lemma fuzzy_pass_spec sel ps :
  let st := fuzzy_pass (exact_pass sel ps) ps in
  Player.member <$> selected_players st = Player.member <$> sel
  ∧ (∀ k, selected_players st !! k = credit_all (credits sel ps k) <$> sel !! k)
  ∧ (∀ idx, idx ∈ matched_payment_indices st
            ↔ ∃ p, ps !! idx = Some p
                   ∧ (is_Some (exact_target sel p)
                      ∨ is_Some (fuzzy_target sel p)))
  ∧ resolved_payments st = partial_resolve sel ps <$> ps.
Proof.
  destruct (exact_pass_spec sel ps) as (Hm0 & Hl0 & Hi0 & _).
  destruct (fuzzy_pass_prefix_spec sel ps ps [] (eq_sym (app_nil_r ps)))
    as (Hm & Hl & Hi & Hr).
  cbn zeta in *. unfold fuzzy_pass.
  rewrite (same_member_names _ _ Hm0).
  split_and!; [done| | |done].
  - intros k. rewrite Hl, Hl0. unfold credits.
    destruct (sel !! k); [|done]. cbn. by rewrite credit_all_app.
  - intros idx. rewrite Hi, Hi0. split.
    + intros [(p & Hp & ?)|(p & Hp & _ & ?)]; exists p; eauto.
    + intros (p & Hp & Hsome).
      destruct (exact_target sel p) eqn:Hex.
      * left. exists p. by rewrite Hex.
      * right. exists p. split_and!; try done.
        destruct Hsome as [[? [=]]|?]; done.
Qed.

(** Row [k] of the returned table is row [k] of the initial table, credited
    with its matches in processing order and then given its status. *)
Lemma reconcile_players_lookup (members_df : list Member.t) ps k :
  let sel := init_selected members_df in
  r_selected_players (reconcile_memberships members_df ps) !! k
  = (fun pl0 => update_status (credit_all (credits sel ps k) pl0)) <$> sel !! k.
Proof.
  cbn zeta. unfold reconcile_memberships. cbn [r_selected_players].
  destruct (fuzzy_pass_spec (init_selected members_df) ps) as (_ & Hl & _).
  rewrite list_lookup_fmap, Hl. by destruct (init_selected members_df !! k).
Qed.

Lemma partial_resolve_all sel ps p :
  p ∈ ps →
  Payment.NormalizedName p = normalize_name (Payment.FullName p) →
  partial_resolve sel ps p = resolve sel p.
Proof.
  intros Hin Hn. unfold partial_resolve, resolve.
  destruct (exact_target sel p) eqn:Hex; [done|].
  rewrite Hn. fold (fuzzy_target sel p).
  destruct (fuzzy_target sel p) as [k|] eqn:Hfz.
  - rewrite decide_True; [done|].
    apply Exists_exists. exists p. by rewrite Hfz.
  - rewrite decide_False; [done|].
    intros (q & _ & _ & Hq & Hsome)%Exists_exists.
    unfold fuzzy_target in *. rewrite Hq, Hfz in Hsome. by destruct Hsome.
Qed.

(** The audit trail of preprocessed payments. *)
Lemma reconcile_resolved (members_df : list Member.t) ps :
  preprocessed ps →
  r_resolved_payments (reconcile_memberships members_df ps)
  = resolve (init_selected members_df) <$> ps.
Proof.
  intros Hpre. unfold reconcile_memberships. cbn [r_resolved_payments].
  destruct (fuzzy_pass_spec (init_selected members_df) ps) as (_ & _ & _ & ->).
  apply list_fmap_ext. intros i p Hp. apply partial_resolve_all.
  - by eapply list_elem_of_lookup_2.
  - eapply Forall_lookup_1 in Hpre; [|done]. done.
Qed.

Lemma load_preprocessed members_csv payments_csv external_csv :
  preprocessed (load_and_preprocess_data members_csv payments_csv external_csv).1.2.
Proof. cbn. unfold preprocessed. rewrite Forall_fmap. by apply Forall_forall. Qed.

(** *** What crediting a list of payments does to a row *)

Lemma Qsum_app l1 l2 : (Qsum (l1 ++ l2) == Qsum l1 + Qsum l2)%Q.
Proof.
  unfold Qsum. induction l1 as [|x l1 IH]; cbn [foldr app]; [ring|].
  rewrite IH. ring.
Qed.

Lemma credit_all_PaidAmount l pl :
  (Player.PaidAmount (credit_all l pl)
   == Player.PaidAmount pl + Qsum (Payment.Amount <$> l))%Q.
Proof.
  induction l as [|p l IH] using rev_ind.
  { unfold Qsum. cbn [credit_all fold_left fmap list_fmap foldr]. ring. }
  rewrite credit_all_snoc, fmap_app, Qsum_app.
  unfold Qsum at 2. cbn [fmap list_fmap foldr credit Player.PaidAmount].
  rewrite IH. ring.
Qed.

Lemma credit_all_PaymentDate l pl :
  Player.PaymentDate (credit_all l pl)
  = match last l with
    | Some p => Some (Payment.PaymentDate p)
    | None => Player.PaymentDate pl
    end.
Proof.
  induction l as [|p l IH] using rev_ind; [done|].
  by rewrite credit_all_snoc, last_snoc.
Qed.

Lemma credit_all_member l pl :
  Player.member (credit_all l pl) = Player.member pl.
Proof.
  induction l as [|p l IH] using rev_ind; [done|].
  by rewrite credit_all_snoc.
Qed.

Lemma credit_all_Outstanding l pl :
  Player.Outstanding (credit_all l pl)
  = match last l with
    | Some _ => max0 (ANNUAL_FEE - Player.PaidAmount (credit_all l pl))
    | None => Player.Outstanding pl
    end.
Proof.
  induction l as [|p l IH] using rev_ind; [done|].
  by rewrite credit_all_snoc, last_snoc.
Qed.

Lemma init_selected_lookup (members_df : list Member.t) k pl0 :
  init_selected members_df !! k = Some pl0 →
  Player.PaidAmount pl0 = 0%Q ∧ Player.PaymentDate pl0 = None
  ∧ Player.Outstanding pl0 = ANNUAL_FEE
  ∧ Member.IsSelectedOfficialTeam (Player.member pl0) = "Yes".
Proof.
  unfold init_selected. rewrite list_lookup_fmap.
  destruct (filter _ members_df !! k) as [m|] eqn:Em; [|done].
  intros [= <-]. split_and!; try done.
  apply list_elem_of_lookup_2, list_elem_of_filter in Em. by destruct Em.
Qed.

(** A row [A] of the returned table at position [k], in terms of the
    payments matched to it. *)
Lemma reconcile_row (members_df : list Member.t) ps k A :
  let sel := init_selected members_df in
  r_selected_players (reconcile_memberships members_df ps) !! k = Some A →
  ∃ pl0, sel !! k = Some pl0
    ∧ Player.member A = Player.member pl0
    ∧ (Player.PaidAmount A == Qsum (Payment.Amount <$> credits sel ps k))%Q
    ∧ Player.PaymentDate A = Payment.PaymentDate <$> last (credits sel ps k).
Proof.
  cbn zeta. rewrite reconcile_players_lookup.
  destruct (init_selected members_df !! k) as [pl0|] eqn:Ek; [|done].
  intros [= <-]. exists pl0.
  apply init_selected_lookup in Ek as (Hpaid & Hdate & _).
  split_and!; try done.
  - cbn. by rewrite credit_all_member.
  - cbn [update_status Player.PaidAmount].
    rewrite credit_all_PaidAmount, Hpaid. ring.
  - cbn. rewrite credit_all_PaymentDate, Hdate.
    by destruct (last _).
Qed.

End Reconcile.

(** ** Accumulated amounts and the audit trail *)

Section Accounts.
Implicit Types (sel : list Player.t) (ps : list Payment.t).
Implicit Types (p : Payment.t) (pl : Player.t) (k idx : nat).

Lemma exact_target_Some sel p k :
  exact_target sel p = Some k →
  ∃ pl sid, sel !! k = Some pl ∧ Payment.StudentID p = Some sid
            ∧ Player.StudentID pl = Some sid
            ∧ ∀ k' pl', sel !! k' = Some pl' → k' < k →
                        Player.StudentID pl' ≠ Some sid.
Proof.
  unfold exact_target. destruct (Payment.StudentID p) as [sid|]; [|done].
  destruct (list_find _ sel) as [[k0 pl]|] eqn:Ef; [|done].
  intros [= <-]. apply list_find_Some in Ef as (Hk & Hid & Hfirst).
  exists pl, sid. split_and!; done.
Qed.

Lemma fuzzy_target_Some sel p k :
  fuzzy_target sel p = Some k →
  ∃ pl n, sel !! k = Some pl
          ∧ fuzzy_name sel (normalize_name (Payment.FullName p)) = Some n
          ∧ Player.NormalizedName pl = n
          ∧ ∀ k' pl', sel !! k' = Some pl' → k' < k →
                      Player.NormalizedName pl' ≠ n.
Proof.
  unfold fuzzy_target, fuzzy_target_name.
  destruct (fuzzy_name sel _) as [n|]; [|done]. cbn.
  destruct (list_find _ sel) as [[k0 pl]|] eqn:Ef; [|done].
  intros [= <-]. apply list_find_Some in Ef as (Hk & Hid & Hfirst).
  exists pl, n. split_and!; done.
Qed.

Lemma row_id_unique sel k k' s :
  NoDup (Player.StudentID <$> sel) →
  row_id sel k = Some s → row_id sel k' = Some s → k = k'.
Proof.
  intros Hnd Hk Hk'. apply (NoDup_lookup _ k k' (Some s) Hnd).
  - rewrite list_lookup_fmap. unfold row_id in Hk.
    destruct (sel !! k); [|done]. cbn in *. by rewrite Hk.
  - rewrite list_lookup_fmap. unfold row_id in Hk'.
    destruct (sel !! k'); [|done]. cbn in *. by rewrite Hk'.
Qed.

Lemma target_row_id sel k0 k s :
  NoDup (Player.StudentID <$> sel) →
  row_id sel k = Some s →
  row_id sel k0 = Some s ↔ k0 = k.
Proof.
  intros Hnd Hk. split; [|by intros ->].
  intros Hk0. by apply (row_id_unique sel k0 k s).
Qed.

(** With distinct identifiers, the audit trail names the account of row [k]
    exactly for the payments credited to row [k]. *)
Lemma resolve_id_iff sel k s p :
  NoDup (Player.StudentID <$> sel) →
  row_id sel k = Some s →
  Resolved.ResolvedStudentID (resolve sel p) = Some s
  ↔ exact_target sel p = Some k
    ∨ (exact_target sel p = None ∧ fuzzy_target sel p = Some k).
Proof.
  intros Hnd Hk. unfold resolve.
  destruct (exact_target sel p) as [k0|] eqn:Hex; cbn.
  - rewrite (target_row_id sel k0 k s Hnd Hk). split.
    + intros ->. by left.
    + by intros [[= ->]|[? _]].
  - destruct (fuzzy_target sel p) as [k0|] eqn:Hfz; cbn.
    + rewrite (target_row_id sel k0 k s Hnd Hk). split.
      * intros ->. by right.
      * by intros [?|[_ [= ->]]].
    + split; [done|]. by intros [?|[_ ?]].
Qed.

Lemma resolved_sum_split sel ps k s :
  NoDup (Player.StudentID <$> sel) →
  row_id sel k = Some s →
  (Qsum ((fun rp => Payment.Amount (Resolved.payment rp))
           <$> filter (fun rp => Resolved.ResolvedStudentID rp = Some s)
                      (resolve sel <$> ps))
   == Qsum (Payment.Amount <$> credits sel ps k))%Q.
Proof.
  intros Hnd Hk. unfold credits, exact_matches, fuzzy_matches.
  rewrite fmap_app, Qsum_app.
  induction ps as [|p ps IH]; [reflexivity|].
  rewrite fmap_cons, !filter_cons.
  pose proof (resolve_id_iff sel k s p Hnd Hk) as Hiff.
  assert (Hpay : Resolved.payment (resolve sel p) = p).
  { unfold resolve. by repeat case_match. }
  destruct (decide (exact_target sel p = Some k)) as [He|He].
  - rewrite decide_True by (apply Hiff; by left).
    rewrite decide_False by (intros [? _]; congruence).
    rewrite !fmap_cons. unfold Qsum in *. cbn [foldr].
    rewrite IH, Hpay. ring.
  - destruct (decide (exact_target sel p = None
                      ∧ fuzzy_target sel p = Some k)) as [Hf|Hf].
    + rewrite decide_True by (apply Hiff; by right).
      rewrite !fmap_cons. unfold Qsum in *. cbn [foldr].
      rewrite IH, Hpay. ring.
    + rewrite decide_False by (rewrite Hiff; tauto).
      apply IH.
Qed.

Lemma init_selected_loaded_ids (members_csv : list Member.t) :
  Player.StudentID
    <$> init_selected
          ((fun m => Member.with_NormalizedName
                       (normalize_name (Member.FullName m)) m) <$> members_csv)
  = Member.StudentID
      <$> filter (fun m => Member.IsSelectedOfficialTeam m = "Yes") members_csv.
Proof.
  unfold init_selected. induction members_csv as [|m ms IH]; [done|].
  rewrite fmap_cons, !filter_cons. cbn [Member.with_NormalizedName
    Member.IsSelectedOfficialTeam].
  destruct (decide (Member.IsSelectedOfficialTeam m = "Yes")).
  - rewrite !fmap_cons. f_equal. apply IH.
  - apply IH.
Qed.

(** C6, amended: when the obligated payers of the payer table carry
    identifiers that are present and pairwise distinct, then, after the run
    over the loaded tables, the final [PaidAmount] of every account is the
    sum of the amounts of exactly the payments whose [ResolvedStudentID] in
    the audit trail is the identifier of the account. *)
Theorem paid_amount_is_sum_of_resolved (members_csv : list Member.t)
    (payments_csv : list Payment.t) (external_csv : list Booking.t) :
  let obligated :=
    filter (fun m => Member.IsSelectedOfficialTeam m = "Yes") members_csv in
  let loaded := load_and_preprocess_data members_csv payments_csv external_csv in
  let r := reconcile_memberships loaded.1.1 loaded.1.2 in
  NoDup (Member.StudentID <$> obligated) →
  Forall (fun m => is_Some (Member.StudentID m)) obligated →
  Forall (fun A =>
      (Player.PaidAmount A
       == Qsum ((fun rp => Payment.Amount (Resolved.payment rp))
                  <$> filter (fun rp => Resolved.ResolvedStudentID rp
                                        = Player.StudentID A)
                             (r_resolved_payments r)))%Q)
    (r_selected_players r).
Proof.
  intros obligated loaded r Hnd Hids.
  pose proof (load_preprocessed members_csv payments_csv external_csv) as Hpre.
  fold loaded in Hpre.
  pose proof (init_selected_loaded_ids members_csv) as Hsel.
  change (_ <$> members_csv) with loaded.1.1 in Hsel. fold obligated in Hsel.
  apply Forall_lookup. intros k A HA.
  subst r. rewrite reconcile_resolved by done.
  apply reconcile_row in HA as (pl0 & Hk & Hmem & Hpaid & _).
  assert (Hs : ∃ s, Player.StudentID pl0 = Some s).
  { assert (Hin : Player.StudentID pl0 ∈ Member.StudentID <$> obligated).
    { rewrite <- Hsel. apply list_elem_of_fmap. exists pl0. split; [done|].
      by eapply list_elem_of_lookup_2. }
    apply list_elem_of_fmap in Hin as (m & -> & Hm).
    by eapply Forall_forall in Hids. }
  destruct Hs as [s Hs].
  assert (Hrow : row_id (init_selected loaded.1.1) k = Some s).
  { unfold row_id. by rewrite Hk. }
  replace (Player.StudentID A) with (Some s)
    by (unfold Player.StudentID in *; by rewrite Hmem).
  rewrite Hpaid. symmetry. apply resolved_sum_split; [|done].
  by rewrite Hsel.
Qed.

(** C9: the final [PaymentDate] of an account is the date of the last
    payment matched to it in processing order, the matches of the first pass
    in input order followed by those of the second pass in input order. *)
Theorem last_payment_date_is_last_processed (members_df : list Member.t)
    (payments_df : list Payment.t) (k : nat) (A : Player.t) (p : Payment.t) :
  let sel := init_selected members_df in
  r_selected_players (reconcile_memberships members_df payments_df) !! k
    = Some A →
  last (exact_matches sel payments_df k ++ fuzzy_matches sel payments_df k)
    = Some p →
  Player.PaymentDate A = Some (Payment.PaymentDate p).
Proof.
  intros sel HA Hlast.
  apply reconcile_row in HA as (pl0 & _ & _ & _ & Hdate).
  fold sel in Hdate. unfold credits in Hdate. by rewrite Hdate, Hlast.
Qed.

(** *** Rows that share an identifier or a normalised name *)

Lemma filter_none {T : Type} (P : T → Prop) `{!∀ x, Decision (P x)} (l : list T) :
  (∀ x, x ∈ l → ¬ P x) → filter P l = [].
Proof.
  intros Hno. induction l as [|x l IH]; [done|].
  rewrite filter_cons, decide_False by (apply Hno; left).
  apply IH. intros y Hy. apply Hno. by right.
Qed.

Lemma reconcile_row_of_initial (members_df : list Member.t) ps k pl0 :
  init_selected members_df !! k = Some pl0 →
  ∃ A, r_selected_players (reconcile_memberships members_df ps) !! k = Some A
       ∧ Player.member A = Player.member pl0.
Proof.
  intros Hk. rewrite reconcile_players_lookup, Hk. eexists. split; [done|].
  cbn. by rewrite credit_all_member.
Qed.

Lemma exact_target_first sel p k pl sid :
  sel !! k = Some pl →
  Player.StudentID pl = Some sid →
  (∀ k' pl', sel !! k' = Some pl' → k' < k → Player.StudentID pl' ≠ Some sid) →
  exact_target sel p = Some k ↔ Payment.StudentID p = Some sid.
Proof.
  intros Hk Hid Hfirst. split.
  - intros (pl' & sid' & Hk' & Hp & Hid' & _)%exact_target_Some. congruence.
  - intros Hp. unfold exact_target. rewrite Hp.
    assert (list_find (fun pl => Player.StudentID pl = Some sid) sel
            = Some (k, pl)) as ->; [|done].
    apply list_find_Some. split_and!; done.
Qed.

Lemma fuzzy_target_first sel p k pl n :
  sel !! k = Some pl →
  Player.NormalizedName pl = n →
  (∀ k' pl', sel !! k' = Some pl' → k' < k → Player.NormalizedName pl' ≠ n) →
  fuzzy_target sel p = Some k
  ↔ fuzzy_name sel (normalize_name (Payment.FullName p)) = Some n.
Proof.
  intros Hk Hn Hfirst. split.
  - intros (pl' & n' & Hk' & Hp & Hn' & _)%fuzzy_target_Some. congruence.
  - intros Hp. unfold fuzzy_target, fuzzy_target_name. rewrite Hp. cbn.
    assert (list_find (fun pl => Player.NormalizedName pl = n) sel
            = Some (k, pl)) as ->; [|done].
    apply list_find_Some. split_and!; done.
Qed.

Lemma exact_target_not_later sel p i j pli plj :
  i < j → sel !! i = Some pli → sel !! j = Some plj →
  Player.StudentID pli = Player.StudentID plj →
  exact_target sel p ≠ Some j.
Proof.
  intros Hlt Hi Hj Hsame (pl & sid & Hj' & _ & Hid & Hfirst)%exact_target_Some.
  apply (Hfirst i pli Hi Hlt). congruence.
Qed.

Lemma fuzzy_target_not_later sel p i j pli plj :
  i < j → sel !! i = Some pli → sel !! j = Some plj →
  Player.NormalizedName pli = Player.NormalizedName plj →
  fuzzy_target sel p ≠ Some j.
Proof.
  intros Hlt Hi Hj Hsame (pl & n & Hj' & _ & Hn & Hfirst)%fuzzy_target_Some.
  apply (Hfirst i pli Hi Hlt). congruence.
Qed.

(** C10: when two obligated payers share an identifier, every payment of the
    first pass carrying it is credited to the first of them in table order
    and a later one receives nothing from the first pass; when two share a
    normalised name, every payment of the second pass whose fuzzy search
    returns that name is credited to the first of them and a later one
    receives nothing from the second pass. *)
Theorem duplicate_rows_first_row_credited (members_df : list Member.t)
    (payments_df : list Payment.t) (i j : nat) (Ai Aj : Player.t) :
  let sel := init_selected members_df in
  let r := reconcile_memberships members_df payments_df in
  i < j →
  r_selected_players r !! i = Some Ai →
  r_selected_players r !! j = Some Aj →
  (∀ s, Player.StudentID Ai = Some s → Player.StudentID Aj = Some s →
        (∀ i' A', r_selected_players r !! i' = Some A' → i' < i →
                  Player.StudentID A' ≠ Some s) →
        exact_matches sel payments_df i
          = filter (fun p => Payment.StudentID p = Some s) payments_df
        ∧ exact_matches sel payments_df j = []
        ∧ (Player.PaidAmount Ai
           == Qsum (Payment.Amount
                      <$> filter (fun p => Payment.StudentID p = Some s)
                                 payments_df)
              + Qsum (Payment.Amount <$> fuzzy_matches sel payments_df i))%Q
        ∧ (Player.PaidAmount Aj
           == Qsum (Payment.Amount <$> fuzzy_matches sel payments_df j))%Q)
  ∧ (∀ n, Player.NormalizedName Ai = n → Player.NormalizedName Aj = n →
          (∀ i' A', r_selected_players r !! i' = Some A' → i' < i →
                    Player.NormalizedName A' ≠ n) →
          let fuzzy_n :=
            filter (fun p => exact_target sel p = None
                             ∧ fuzzy_name sel (normalize_name (Payment.FullName p))
                               = Some n) payments_df in
          fuzzy_matches sel payments_df i = fuzzy_n
          ∧ fuzzy_matches sel payments_df j = []
          ∧ (Player.PaidAmount Ai
             == Qsum (Payment.Amount <$> exact_matches sel payments_df i)
                + Qsum (Payment.Amount <$> fuzzy_n))%Q
          ∧ (Player.PaidAmount Aj
             == Qsum (Payment.Amount <$> exact_matches sel payments_df j))%Q).
Proof.
  intros sel r Hlt HAi HAj.
  destruct (reconcile_row _ _ _ _ HAi) as (pli & Hi & Hmi & Hpi & _).
  destruct (reconcile_row _ _ _ _ HAj) as (plj & Hj & Hmj & Hpj & _).
  fold sel in Hi, Hj, Hpi, Hpj. unfold credits in Hpi, Hpj.
  rewrite fmap_app, Qsum_app in Hpi, Hpj.
  assert (Hrows : ∀ k pl, sel !! k = Some pl →
            ∃ A, r_selected_players r !! k = Some A
                 ∧ Player.member A = Player.member pl).
  { intros k pl. apply reconcile_row_of_initial. }
  split.
  - intros s Hsi Hsj Hfirst.
    assert (Hidi : Player.StudentID pli = Some s)
      by (unfold Player.StudentID in *; by rewrite <- Hmi).
    assert (Hidj : Player.StudentID plj = Some s)
      by (unfold Player.StudentID in *; by rewrite <- Hmj).
    assert (He : exact_matches sel payments_df i
                 = filter (fun p => Payment.StudentID p = Some s) payments_df).
    { apply list_filter_iff. intros p. apply (exact_target_first sel p i pli s);
        [done..|].
      intros k' pl' Hk' Hlt'. destruct (Hrows k' pl' Hk') as (A' & HA' & Hm').
      pose proof (Hfirst k' A' HA' Hlt') as Hne.
      unfold Player.StudentID in *. by rewrite <- Hm'. }
    assert (He' : exact_matches sel payments_df j = []).
    { apply filter_none. intros p _.
      apply (exact_target_not_later sel p i j pli plj); congruence. }
    split_and!; [done|done| |].
    + by rewrite Hpi, He.
    + rewrite Hpj, He'. unfold Qsum at 1. cbn [fmap list_fmap foldr]. ring.
  - intros n Hni Hnj Hfirst fuzzy_n.
    assert (Hnamei : Player.NormalizedName pli = n)
      by (unfold Player.NormalizedName in *; by rewrite <- Hmi).
    assert (Hnamej : Player.NormalizedName plj = n)
      by (unfold Player.NormalizedName in *; by rewrite <- Hmj).
    assert (Hf : fuzzy_matches sel payments_df i = fuzzy_n).
    { apply list_filter_iff. intros p.
      rewrite (fuzzy_target_first sel p i pli n); [done..|].
      intros k' pl' Hk' Hlt'. destruct (Hrows k' pl' Hk') as (A' & HA' & Hm').
      pose proof (Hfirst k' A' HA' Hlt') as Hne.
      unfold Player.NormalizedName in *. by rewrite <- Hm'. }
    assert (Hf' : fuzzy_matches sel payments_df j = []).
    { apply filter_none. intros p _ [_ Hfz]. revert Hfz.
      apply (fuzzy_target_not_later sel p i j pli plj); congruence. }
    split_and!; [done|done| |].
    + by rewrite Hpi, Hf.
    + rewrite Hpj, Hf'. unfold Qsum at 2. cbn [fmap list_fmap foldr]. ring.
Qed.

End Accounts.

(** ** The statements at the sample tables *)

Lemma sample_rows :
  r_selected_players (reconcile_memberships Sample.members Sample.payments) !! 0
  = Some Sample.john.
Proof. vm_compute. reflexivity. Qed.

Lemma twin_rows :
  r_selected_players
    (reconcile_memberships Sample.twin_members Sample.twin_payments)
  = [Sample.ann_first; Sample.ann_second].
Proof. vm_compute. reflexivity. Qed.

(** C6, counterexample: the claim, stated of every table, fails where two
    obligated payers share an identifier. At the twin tables the audit trail
    resolves both payments, 50 and 70, to the identifier 7; the first
    account holds 120, the second one, with the same identifier, holds 0
    and not the 120 that the entries of its identifier add up to. *)
Lemma paid_amount_not_sum_with_shared_identifier :
  let loaded :=
    load_and_preprocess_data Sample.twin_members Sample.twin_payments [] in
  let r := reconcile_memberships loaded.1.1 loaded.1.2 in
  ¬ Forall (fun A =>
        (Player.PaidAmount A
         == Qsum ((fun rp => Payment.Amount (Resolved.payment rp))
                    <$> filter (fun rp => Resolved.ResolvedStudentID rp
                                          = Player.StudentID A)
                               (r_resolved_payments r)))%Q)
      (r_selected_players r).
Proof.
  cbv zeta. intros Hall.
  assert (Hrows :
    r_selected_players
      (reconcile_memberships
         (load_and_preprocess_data Sample.twin_members Sample.twin_payments
                                   []).1.1
         (load_and_preprocess_data Sample.twin_members Sample.twin_payments
                                   []).1.2)
    = [Sample.ann_first; Sample.ann_second]) by (vm_compute; reflexivity).
  rewrite Hrows in Hall.
  apply Forall_cons in Hall as [_ Hall]. apply Forall_cons in Hall as [Hsecond _].
  vm_compute in Hsecond. discriminate Hsecond.
Qed.

(** C6, amended, at the sample tables. *)
Lemma paid_amount_is_sum_of_resolved_witness :
  let loaded := load_and_preprocess_data Sample.members Sample.payments [] in
  let r := reconcile_memberships loaded.1.1 loaded.1.2 in
  Forall (fun A =>
      (Player.PaidAmount A
       == Qsum ((fun rp => Payment.Amount (Resolved.payment rp))
                  <$> filter (fun rp => Resolved.ResolvedStudentID rp
                                        = Player.StudentID A)
                             (r_resolved_payments r)))%Q)
    (r_selected_players r).
Proof.
  apply (paid_amount_is_sum_of_resolved Sample.members Sample.payments []).
  - apply (bool_decide_unpack _). vm_compute. exact I.
  - apply (bool_decide_unpack _). vm_compute. exact I.
Defined.

(** C9 at the sample tables: John Smith's identifier match is dated
    2024-01-02, his fuzzy match, processed after it, 2024-01-01; the account
    ends with the earlier date. *)
Lemma last_payment_date_is_last_processed_witness :
  Player.PaymentDate Sample.john = Some "2024-01-01".
Proof.
  apply (last_payment_date_is_last_processed Sample.members Sample.payments 0
           Sample.john
           (Payment.mk None (Some "Jon Smith") 70 "2024-01-01" "jon smith")).
  - vm_compute. reflexivity.
  - vm_compute. reflexivity.
Defined.

(** C10 at the twin tables: the later twin gets nothing from either pass. *)
Lemma duplicate_rows_first_row_credited_witness :
  exact_matches (init_selected Sample.twin_members) Sample.twin_payments 1 = []
  ∧ fuzzy_matches (init_selected Sample.twin_members) Sample.twin_payments 1 = [].
Proof.
  destruct (duplicate_rows_first_row_credited Sample.twin_members
              Sample.twin_payments 0 1 Sample.ann_first Sample.ann_second)
    as [Hid Hname].
  - lia.
  - vm_compute. reflexivity.
  - vm_compute. reflexivity.
  - split.
    + apply (Hid 7%Z); [reflexivity | reflexivity |]. intros i' A' _ Hlt. lia.
    + apply (Hname "ann lee"); [reflexivity | reflexivity |].
      intros i' A' _ Hlt. lia.
Defined.

(** ** [difflib]: the blocks of [find_longest_match] *)

Section LongestMatch.
Import Difflib DifflibSpec.
Local Open Scope nat_scope.
Context `{Countable A}.
Implicit Types (a b row : list A) (b2j : gmap A (list nat)).
Implicit Types (j2len newj2len : gmap nat nat) (best m : Match).

Lemma match_at_0 a b i j : match_at a b i j 0.
Proof. intros t Ht. lia. Qed.

Lemma match_at_snoc a b i j k x :
  match_at a b i j k →
  a !! (i + k) = Some x → b !! (j + k) = Some x →
  match_at a b i j (S k).
Proof.
  intros Hm Ha Hb t Ht. destruct (decide (t = k)) as [->|Hne].
  - by exists x.
  - apply Hm. lia.
Qed.

Lemma match_at_cons a b i j k x :
  match_at a b (S i) (S j) k →
  a !! i = Some x → b !! j = Some x →
  match_at a b i j (S k).
Proof.
  intros Hm Ha Hb [|t] Ht.
  - exists x. by rewrite !Nat.add_0_r.
  - destruct (Hm t) as (y & Hy1 & Hy2); [lia|]. exists y.
    by rewrite <- !Nat.add_succ_comm.
Qed.

Lemma same_at_true a b i j :
  same_at a b i j = true → ∃ x, a !! i = Some x ∧ b !! j = Some x.
Proof.
  unfold same_at. destruct (a !! i) as [x|], (b !! j) as [y|]; try done.
  intros ->%bool_decide_eq_true. by exists y.
Qed.

Lemma flm_inner_ok a b alo blo bhi i x j2len js newj2len best :
  a !! i = Some x → alo ≤ i →
  (∀ j, j ∈ js → b !! j = Some x) →
  j2len_ok a b alo blo bhi i j2len →
  j2len_ok a b alo blo bhi (S i) newj2len →
  block_in a b alo (S i) blo bhi best →
  let '(newj2len', best') := flm_inner blo bhi i j2len js newj2len best in
  j2len_ok a b alo blo bhi (S i) newj2len'
  ∧ block_in a b alo (S i) blo bhi best'.
Proof.
  intros Hx Hi Hjs Hold. revert newj2len best.
  induction js as [|j js IH]; intros newj2len best Hnew Hbest; [done|].
  cbn [flm_inner].
  assert (Hjs' : ∀ j', j' ∈ js → b !! j' = Some x)
    by (intros j' Hj'; apply Hjs; by right).
  destruct (j <? blo) eqn:Eblo; [by apply IH|].
  destruct (bhi <=? j) eqn:Ebhi; [done|].
  apply Nat.ltb_ge in Eblo. apply Nat.leb_gt in Ebhi.
  assert (Hb : b !! j = Some x) by (apply Hjs; left).
  assert (Hblock : ∃ si sj, si + (j2len_prev j2len j + 1) = S i
              ∧ sj + (j2len_prev j2len j + 1) = S j ∧ alo ≤ si ∧ blo ≤ sj
              ∧ match_at a b si sj (j2len_prev j2len j + 1)).
  { unfold j2len_prev. destruct j as [|j'].
    - exists i, 0. split_and!; try lia.
      apply (match_at_snoc _ _ _ _ 0 x); [apply match_at_0|..];
        by rewrite ?Nat.add_0_r.
    - destruct (j2len !! j') as [k'|] eqn:Ek'; cbn.
      + destruct (Hold j' k' Ek') as (si & sj & Hsi & Hsj & ? & ? & ? & ? & Hm).
        exists si, sj. split_and!; try lia.
        rewrite Nat.add_1_r. apply (match_at_snoc _ _ _ _ _ x); [done|..].
        * by rewrite Hsi.
        * by rewrite Hsj.
      + exists i, (S j'). split_and!; try lia.
        apply (match_at_snoc _ _ _ _ 0 x); [apply match_at_0|..];
          by rewrite ?Nat.add_0_r. }
  destruct Hblock as (si & sj & Hsi & Hsj & Hlo & Hblo & Hm).
  apply (IH Hjs').
  - intros j0 k0. rewrite lookup_insert. case_decide as Hj0.
    + intros [= <-]. subst j0. exists si, sj. split_and!; try done; lia.
    + apply Hnew.
  - destruct (best.2 <? j2len_prev j2len j + 1) eqn:Elt; [|done].
    unfold block_in. cbn.
    replace (i + 1 - (j2len_prev j2len j + 1)) with si by lia.
    replace (j + 1 - (j2len_prev j2len j + 1)) with sj by lia.
    split_and!; try done; lia.
Qed.

Lemma j2len_ok_empty a b alo blo bhi i : j2len_ok a b alo blo bhi i ∅.
Proof. intros j k. by rewrite lookup_empty. Qed.

Lemma block_in_weaken a b alo ahi ahi' blo bhi m :
  ahi ≤ ahi' → block_in a b alo ahi blo bhi m → block_in a b alo ahi' blo bhi m.
Proof. unfold block_in. intros ? (? & ? & ? & ? & ?). split_and!; try done; lia. Qed.

Lemma flm_outer_ok a b b2j alo blo bhi row i j2len best :
  b2j_sound b b2j →
  (∀ t x, row !! t = Some x → a !! (i + t) = Some x) →
  alo ≤ i →
  j2len_ok a b alo blo bhi i j2len →
  block_in a b alo i blo bhi best →
  block_in a b alo (i + length row) blo bhi
           (flm_outer b2j blo bhi row i j2len best).
Proof.
  intros Hsound. revert i j2len best.
  induction row as [|x row IH]; intros i j2len best Hrow Hi Hold Hbest.
  { cbn. by rewrite Nat.add_0_r. }
  cbn [flm_outer length].
  assert (Hx : a !! i = Some x).
  { specialize (Hrow 0 x). rewrite Nat.add_0_r in Hrow. by apply Hrow. }
  pose proof (flm_inner_ok a b alo blo bhi i x j2len
                (default [] (b2j !! x)) ∅ best Hx Hi) as Hinner.
  destruct (flm_inner blo bhi i j2len (default [] (b2j !! x)) ∅ best)
    as [newj2len best'].
  destruct Hinner as [Hnew Hbest'].
  - intros j Hj. destruct (b2j !! x) as [js|] eqn:Ejs; cbn in Hj.
    + by apply (Hsound x js).
    + by apply elem_of_nil in Hj.
  - done.
  - apply j2len_ok_empty.
  - apply (block_in_weaken _ _ _ i); [lia | done].
  - rewrite <- Nat.add_succ_comm. apply IH; try done; [|lia].
    intros t y Ht. rewrite Nat.add_succ_comm. by apply (Hrow (S t)).
Qed.

Lemma extend_left_ok a b alo ahi blo bhi besti bestj bestsize :
  block_in a b alo ahi blo bhi (besti, bestj, bestsize) →
  block_in a b alo ahi blo bhi
           (extend_left a b alo blo besti bestj bestsize).
Proof.
  revert bestj bestsize.
  induction besti as [|i' IH]; intros bestj bestsize Hok; [done|].
  destruct bestj as [|j']; [done|]. cbn [extend_left].
  destruct (_ && _ && same_at a b i' j') eqn:E; [|done].
  apply andb_prop in E as [[Hi Hj]%andb_prop (x & Ha & Hb)%same_at_true].
  apply Nat.ltb_lt in Hi, Hj.
  apply IH. destruct Hok as (? & ? & ? & ? & Hm). cbn in *.
  unfold block_in. cbn. split_and!; try lia.
  by apply (match_at_cons _ _ _ _ _ x).
Qed.

Lemma extend_right_ok a b alo ahi blo bhi besti bestj bestsize steps :
  block_in a b alo ahi blo bhi (besti, bestj, bestsize) →
  block_in a b alo ahi blo bhi
    (besti, bestj, extend_right a b ahi bhi besti bestj bestsize steps).
Proof.
  revert bestsize. induction steps as [|n IH]; intros bestsize Hok; [done|].
  cbn [extend_right].
  destruct (_ && _ && same_at a b _ _) eqn:E; [|done].
  apply andb_prop in E as [[Hi Hj]%andb_prop (x & Ha & Hb)%same_at_true].
  apply Nat.ltb_lt in Hi, Hj.
  apply IH. destruct Hok as (? & ? & ? & ? & Hm). cbn in *.
  unfold block_in. cbn. split_and!; try lia.
  by apply (match_at_snoc _ _ _ _ _ x).
Qed.

(** [find_longest_match] returns a matching block inside the region. *)
Lemma find_longest_match_ok a b b2j alo ahi blo bhi :
  b2j_sound b b2j →
  region_ok a b (alo, ahi, blo, bhi) →
  block_in a b alo ahi blo bhi (find_longest_match a b b2j alo ahi blo bhi).
Proof.
  intros Hsound (Ha1 & Ha2 & Hb1 & Hb2). cbn in *.
  unfold find_longest_match.
  pose proof (flm_outer_ok a b b2j alo blo bhi
                (take (ahi - alo) (drop alo a)) alo ∅ (alo, blo, 0) Hsound)
    as Houter.
  rewrite length_take, length_drop in Houter.
  replace (alo + (ahi - alo) `min` (length a - alo)) with ahi in Houter by lia.
  destruct (flm_outer _ _ _ _ _ _ _) as [[besti bestj] bestsize].
  pose proof (extend_left_ok a b alo ahi blo bhi besti bestj bestsize) as Hleft.
  destruct (extend_left _ _ _ _ _ _ _) as [[besti' bestj'] bestsize'].
  apply extend_right_ok, Hleft, Houter.
  - intros t x Ht. apply lookup_take_Some in Ht as [Ht _].
    by rewrite lookup_drop in Ht.
  - done.
  - apply j2len_ok_empty.
  - unfold block_in. cbn. split_and!; try lia. apply match_at_0.
Qed.

End LongestMatch.

(** ** [difflib]: the index [b2j] and the queue loop *)

Section MatchingBlocks.
Import Difflib DifflibSpec.
Local Open Scope nat_scope.
Context `{Countable A}.
Implicit Types (a b X : list A) (b2j : gmap A (list nat)).
Implicit Types (queue : list (nat * nat * nat * nat)) (acc : list Match).

Lemma b2j_index_sound b : b2j_sound b (b2j_index b).
Proof.
  unfold b2j_index. induction b as [|x b IH] using rev_ind.
  { intros y js j. cbn. by rewrite lookup_empty. }
  rewrite imap_app, fold_left_app. cbn [imap fold_left fst snd].
  rewrite Nat.add_0_r.
  intros y js j. rewrite lookup_insert. case_decide as Hxy.
  - intros [= <-] Hj. subst y. apply elem_of_app in Hj as [Hj|Hj].
    + apply lookup_app_l_Some.
      destruct (fold_left _ _ _ !! x) as [js0|] eqn:E; cbn in Hj.
      * by apply (IH x js0).
      * by apply elem_of_nil in Hj.
    + apply list_elem_of_singleton in Hj as ->.
      by rewrite lookup_app_r, Nat.sub_diag.
  - intros Hjs Hj. apply lookup_app_l_Some. by apply (IH y js).
Qed.

Lemma chain_b_sound b : b2j_sound b (chain_b b).
Proof.
  unfold chain_b. case_decide; [|apply b2j_index_sound].
  intros x js j [Hjs _]%map_lookup_filter_Some Hj.
  by apply (b2j_index_sound b x js).
Qed.

Lemma slice_split (l : list A) lo mid hi :
  lo ≤ mid → mid ≤ hi → slice l lo hi = slice l lo mid ++ slice l mid hi.
Proof.
  intros H1 H2. unfold slice.
  replace (hi - lo) with ((mid - lo) + (hi - mid)) by lia.
  rewrite <- take_take_drop, drop_drop. do 3 f_equal. lia.
Qed.

Lemma slice_length (l : list A) lo hi :
  lo ≤ hi → hi ≤ length l → length (slice l lo hi) = hi - lo.
Proof. intros. unfold slice. rewrite length_take, length_drop. lia. Qed.

Lemma slice_lookup (l : list A) lo hi t :
  slice l lo hi !! t = if decide (t < hi - lo) then l !! (lo + t) else None.
Proof.
  unfold slice. case_decide.
  - by rewrite lookup_take_lt, lookup_drop.
  - rewrite lookup_take_ge; [done | lia].
Qed.

Lemma match_at_slice a b i j k :
  match_at a b i j k → slice a i (i + k) = slice b j (j + k).
Proof.
  intros Hm. apply list_eq. intros t. rewrite !slice_lookup.
  replace (i + k - i) with k by lia. replace (j + k - j) with k by lia.
  case_decide as Ht; [|done].
  destruct (Hm t Ht) as (x & -> & ->). done.
Qed.

Lemma blocks_size_snoc acc (m : Match) :
  blocks_size (acc ++ [m]) = blocks_size acc + m.2.
Proof.
  unfold blocks_size. induction acc as [|m' acc IH]; cbn; [lia|].
  cbn in IH. rewrite IH. lia.
Qed.

Lemma region_slices a b alo ahi blo bhi (m : Match) :
  region_ok a b (alo, ahi, blo, bhi) →
  block_in a b alo ahi blo bhi m →
  slice a alo ahi
    = slice a alo m.1.1 ++ slice a m.1.1 (m.1.1 + m.2)
      ++ slice a (m.1.1 + m.2) ahi
  ∧ slice b blo bhi
    = slice b blo m.1.2 ++ slice a m.1.1 (m.1.1 + m.2)
      ++ slice b (m.1.2 + m.2) bhi
  ∧ length (slice a m.1.1 (m.1.1 + m.2)) = m.2.
Proof.
  intros (Ha1 & Ha2 & Hb1 & Hb2) (Hi1 & Hi2 & Hj1 & Hj2 & Hm). cbn in *.
  split_and!.
  - rewrite (slice_split a alo m.1.1 ahi) by lia.
    by rewrite (slice_split a m.1.1 (m.1.1 + m.2) ahi) by lia.
  - rewrite (match_at_slice a b _ _ _ Hm).
    rewrite (slice_split b blo m.1.2 bhi) by lia.
    by rewrite (slice_split b m.1.2 (m.1.2 + m.2) bhi) by lia.
  - rewrite slice_length; lia.
Qed.

(** The blocks that the queue loop adds match as many elements as some list
    [X] holds, and [X] fits, as a multiset, both into the elements of [a]
    and into the elements of [b] that the queue covers. *)
Lemma blocks_loop_bound a b b2j fuel queue acc :
  b2j_sound b b2j →
  Forall (region_ok a b) queue →
  ∃ X, blocks_size (blocks_loop a b b2j fuel queue acc)
       = blocks_size acc + length X
     ∧ (list_to_set_disj X : gmultiset A) ⊆ list_to_set_disj (queue_a a queue)
     ∧ (list_to_set_disj X : gmultiset A) ⊆ list_to_set_disj (queue_b b queue).
Proof.
  intros Hsound. revert queue acc.
  induction fuel as [|fuel IH]; intros queue acc Hq.
  { exists []. cbn [blocks_loop length]. rewrite list_to_set_disj_nil.
    split_and!; [lia | multiset_solver..]. }
  destruct queue as [|[[[alo ahi] blo] bhi] queue'].
  { exists []. cbn [blocks_loop length]. rewrite list_to_set_disj_nil.
    split_and!; [lia | multiset_solver..]. }
  apply Forall_cons in Hq as [Hr Hq]. cbn [blocks_loop]. cbv zeta.
  pose proof (find_longest_match_ok a b b2j alo ahi blo bhi Hsound Hr) as Hblock.
  pose proof (region_slices a b alo ahi blo bhi _ Hr Hblock) as (Hsa & Hsb & Hlen).
  destruct (find_longest_match a b b2j alo ahi blo bhi) as [[i j] k].
  cbn [fst snd] in *.
  unfold queue_a, queue_b in *. rewrite !bind_cons. cbn [fst snd].
  destruct (k =? 0) eqn:Ek.
  { destruct (IH queue' acc Hq) as (X & Hsize & HXa & HXb).
    exists X. rewrite !list_to_set_disj_app. split; [done|].
    split; multiset_solver. }
  destruct Hr as (Ha1 & Ha2 & Hb1 & Hb2).
  destruct Hblock as (Hi1 & Hi2 & Hj1 & Hj2 & Hm). cbn [fst snd] in *.
  set (q1 := if (alo <? i) && (blo <? j) then [(alo, i, blo, j)] else []).
  set (q2 := if (i + k <? ahi) && (j + k <? bhi)
             then [(i + k, ahi, j + k, bhi)] else []).
  destruct (IH (q2 ++ q1 ++ queue') (acc ++ [(i, j, k)])) as (X & Hsize & HXa & HXb).
  { rewrite !Forall_app. split_and!; [| |done].
    - unfold q2. case_match; [|done]. apply Forall_singleton.
      unfold region_ok. cbn. lia.
    - unfold q1. case_match; [|done]. apply Forall_singleton.
      unfold region_ok. cbn. lia. }
  exists (slice a i (i + k) ++ X).
  rewrite Hsize, blocks_size_snoc, length_app, Hlen. cbn [snd].
  split; [lia|].
  rewrite !bind_app, !list_to_set_disj_app in HXa, HXb.
  rewrite Hsa, Hsb, !list_to_set_disj_app.
  assert (Hq1a : (list_to_set_disj (q1 ≫= (fun r => slice a r.1.1.1 r.1.1.2))
                    : gmultiset A) ⊆ list_to_set_disj (slice a alo i)).
  { unfold q1. case_match; cbn; [rewrite app_nil_r|]; multiset_solver. }
  assert (Hq2a : (list_to_set_disj (q2 ≫= (fun r => slice a r.1.1.1 r.1.1.2))
                    : gmultiset A) ⊆ list_to_set_disj (slice a (i + k) ahi)).
  { unfold q2. case_match; cbn; [rewrite app_nil_r|]; multiset_solver. }
  assert (Hq1b : (list_to_set_disj (q1 ≫= (fun r => slice b r.1.2 r.2))
                    : gmultiset A) ⊆ list_to_set_disj (slice b blo j)).
  { unfold q1. case_match; cbn; [rewrite app_nil_r|]; multiset_solver. }
  assert (Hq2b : (list_to_set_disj (q2 ≫= (fun r => slice b r.1.2 r.2))
                    : gmultiset A) ⊆ list_to_set_disj (slice b (j + k) bhi)).
  { unfold q2. case_match; cbn; [rewrite app_nil_r|]; multiset_solver. }
  split; multiset_solver.
Qed.

Lemma queue_measure_app queue1 queue2 :
  queue_measure (queue1 ++ queue2) = queue_measure queue1 + queue_measure queue2.
Proof.
  unfold queue_measure. induction queue1 as [|r q IH]; cbn; [done|].
  cbn in IH. rewrite IH. lia.
Qed.

(** The queue loop empties its queue within the passes that the measure of
    the queue allows: more fuel changes nothing. *)
Lemma blocks_loop_more_fuel a b b2j fuel extra queue acc :
  b2j_sound b b2j →
  Forall (region_ok a b) queue →
  queue_measure queue ≤ fuel →
  blocks_loop a b b2j (fuel + extra) queue acc
  = blocks_loop a b b2j fuel queue acc.
Proof.
  intros Hsound. revert queue acc.
  induction fuel as [|fuel IH]; intros queue acc Hq Hfuel.
  { destruct queue as [|r q]; [by destruct extra|].
    cbn in Hfuel. lia. }
  destruct queue as [|[[[alo ahi] blo] bhi] queue']; [done|].
  apply Forall_cons in Hq as [Hr Hq].
  cbn [Nat.add blocks_loop]. cbv zeta.
  pose proof (find_longest_match_ok a b b2j alo ahi blo bhi Hsound Hr) as Hblock.
  destruct (find_longest_match a b b2j alo ahi blo bhi) as [[i j] k].
  unfold queue_measure in Hfuel. cbn [foldr fst snd] in Hfuel.
  fold (queue_measure queue') in Hfuel.
  destruct (k =? 0) eqn:Ek.
  { apply IH; [done | lia]. }
  apply Nat.eqb_neq in Ek.
  destruct Hr as (Ha1 & Ha2 & Hb1 & Hb2).
  destruct Hblock as (Hi1 & Hi2 & Hj1 & Hj2 & Hm). cbn [fst snd] in *.
  apply IH.
  - rewrite !Forall_app. split_and!; [| |done].
    + case_match; [|done]. apply Forall_singleton. unfold region_ok. cbn. lia.
    + case_match; [|done]. apply Forall_singleton. unfold region_ok. cbn. lia.
  - rewrite !queue_measure_app.
    assert (queue_measure
              (if (alo <? i) && (blo <? j) then [(alo, i, blo, j)] else [])
            ≤ 2 * (i - alo) + 1)
      by (destruct ((alo <? i) && (blo <? j));
          unfold queue_measure; cbn [foldr fst snd]; lia).
    assert (queue_measure
              (if (i + k <? ahi) && (j + k <? bhi)
               then [(i + k, ahi, j + k, bhi)] else [])
            ≤ 2 * (ahi - (i + k)) + 1)
      by (destruct ((i + k <? ahi) && (j + k <? bhi));
          unfold queue_measure; cbn [foldr fst snd]; lia).
    lia.
Qed.

Lemma blocks_size_perm (l l' : list Match) :
  l ≡ₚ l' → blocks_size l = blocks_size l'.
Proof.
  unfold blocks_size. induction 1; cbn in *; lia.
Qed.

Lemma blocks_size_app (l l' : list Match) :
  blocks_size (l ++ l') = blocks_size l + blocks_size l'.
Proof.
  unfold blocks_size. induction l as [|m l IH]; cbn in *; lia.
Qed.

Lemma collapse_size (blocks : list Match) (cur : Match) (acc : list Match) :
  blocks_size (collapse blocks cur acc)
  = blocks_size acc + cur.2 + blocks_size blocks.
Proof.
  revert cur acc. induction blocks as [|[[i2 j2] k2] blocks IH];
    intros [[i1 j1] k1] acc; cbn [collapse fst snd].
  - destruct (k1 =? 0) eqn:Ek.
    + apply Nat.eqb_eq in Ek. unfold blocks_size at 3. cbn. lia.
    + rewrite blocks_size_snoc. unfold blocks_size at 3. cbn. lia.
  - destruct (_ && _).
    + rewrite IH. unfold blocks_size at 4. cbn [foldr snd].
      fold (blocks_size blocks). cbn. lia.
    + rewrite IH. unfold blocks_size at 4. cbn [foldr snd].
      fold (blocks_size blocks).
      destruct (k1 =? 0) eqn:Ek.
      * apply Nat.eqb_eq in Ek. cbn. lia.
      * rewrite blocks_size_snoc. cbn. lia.
Qed.

(** Sorting the blocks and merging adjacent ones keeps their total size. *)
Lemma get_matching_blocks_size a b :
  blocks_size (get_matching_blocks a b)
  = blocks_size (blocks_loop a b (chain_b b) (2 * length a + 1)
                             [(0, length a, 0, length b)] []).
Proof.
  unfold get_matching_blocks. cbv zeta.
  rewrite blocks_size_app, collapse_size.
  rewrite (blocks_size_perm _ _ (merge_sort_Permutation _ _)).
  unfold blocks_size at 1 4. cbn. lia.
Qed.

(** The elements that the matching blocks pair up form a list [X] that
    fits, as a multiset, into [a] and into [b]. *)
Lemma matching_blocks_bound a b :
  ∃ X, blocks_size (get_matching_blocks a b) = length X
     ∧ (list_to_set_disj X : gmultiset A) ⊆ list_to_set_disj a
     ∧ (list_to_set_disj X : gmultiset A) ⊆ list_to_set_disj b.
Proof.
  rewrite get_matching_blocks_size.
  destruct (blocks_loop_bound a b (chain_b b) (2 * length a + 1)
              [(0, length a, 0, length b)] []) as (X & Hsize & Ha & Hb).
  { apply chain_b_sound. }
  { apply Forall_singleton. unfold region_ok. cbn. lia. }
  exists X. split; [by rewrite Hsize|].
  unfold queue_a, queue_b, slice in Ha, Hb. cbn in Ha, Hb.
  rewrite !app_nil_r, !Nat.sub_0_r, !firstn_all in Ha, Hb. done.
Qed.

(** *** [quick_ratio] counts the multiset intersection *)

Lemma list_to_set_disj_size (l : list A) :
  size (list_to_set_disj l : gmultiset A) = length l.
Proof.
  induction l as [|x l IH]; [done|].
  rewrite list_to_set_disj_cons, gmultiset_size_disj_union,
    gmultiset_size_singleton, IH. done.
Qed.

Lemma fullbcount_spec b c :
  default 0%Z (fullbcount b !! c)
  = Z.of_nat (multiplicity c (list_to_set_disj b : gmultiset A)).
Proof.
  unfold fullbcount. induction b as [|x b IH] using rev_ind; [done|].
  rewrite fold_left_app. cbn [fold_left].
  rewrite list_to_set_disj_app, multiplicity_disj_union.
  rewrite list_to_set_disj_cons, list_to_set_disj_nil, multiplicity_disj_union,
    multiplicity_empty, multiplicity_singleton.
  rewrite lookup_insert. case_decide as Hxc.
  - subst c. rewrite decide_True by done. cbn. rewrite IH. lia.
  - rewrite decide_False by done. rewrite IH. lia.
Qed.

Lemma quick_loop_spec (fbc : gmap A Z) (B : gmultiset A) a :
  (∀ c, default 0%Z (fbc !! c) = Z.of_nat (multiplicity c B)) →
  let '(avail, matches) := fold_left (quick_step fbc) a (∅, 0) in
  (∀ c, match avail !! c with
        | Some n => n
        | None => default 0%Z (fbc !! c)
        end
        = (Z.of_nat (multiplicity c B)
           - Z.of_nat (multiplicity c (list_to_set_disj a : gmultiset A)))%Z)
  ∧ matches = size ((list_to_set_disj a : gmultiset A) ∩ B).
Proof.
  intros Hfbc. induction a as [|x a IH] using rev_ind.
  { cbn [fold_left]. rewrite list_to_set_disj_nil. split.
    - intros c. rewrite lookup_empty, Hfbc, multiplicity_empty. lia.
    - replace (∅ ∩ B) with (∅ : gmultiset A) by multiset_solver.
      symmetry. apply gmultiset_size_empty. }
  rewrite fold_left_app. cbn [fold_left].
  destruct (fold_left (quick_step fbc) a (∅, 0)) as [avail matches].
  destruct IH as [Havail Hmatches]. unfold quick_step.
  pose proof (Havail x) as Hx.
  set (numb := match avail !! x with
               | Some n => n
               | None => default 0%Z (fbc !! x)
               end) in *.
  rewrite list_to_set_disj_app, list_to_set_disj_cons, list_to_set_disj_nil.
  split.
  - intros c. rewrite lookup_insert. rewrite !multiplicity_disj_union,
      multiplicity_empty, multiplicity_singleton. case_decide as Hxc.
    + subst c. rewrite decide_True by done. lia.
    + rewrite decide_False by done. rewrite (Havail c). lia.
  - destruct (0 <? numb)%Z eqn:Epos.
    + apply Z.ltb_lt in Epos.
      replace ((list_to_set_disj a ⊎ ({[+ x +]} ⊎ ∅)) ∩ B)
        with (((list_to_set_disj a : gmultiset A) ∩ B) ⊎ {[+ x +]}).
      * rewrite gmultiset_size_disj_union, gmultiset_size_singleton. lia.
      * apply gmultiset_eq. intros c.
        rewrite !multiplicity_intersection, !multiplicity_disj_union,
          !multiplicity_intersection, multiplicity_empty,
          multiplicity_singleton.
        case_decide; [subst c|]; lia.
    + apply Z.ltb_ge in Epos. rewrite Hmatches. f_equal.
      apply gmultiset_eq. intros c.
      rewrite !multiplicity_intersection, !multiplicity_disj_union,
        multiplicity_empty, multiplicity_singleton.
      case_decide; [subst c|]; lia.
Qed.

Lemma quick_matches_spec a b :
  quick_matches a b
  = size ((list_to_set_disj a : gmultiset A) ∩ list_to_set_disj b).
Proof.
  unfold quick_matches.
  pose proof (quick_loop_spec (fullbcount b) (list_to_set_disj b) a
                (fullbcount_spec b)) as Hloop.
  destruct (fold_left _ a _) as [avail matches]. by destruct Hloop.
Qed.

(** *** The two quick ratios bound the ratio from above *)

Lemma _calculate_ratio_mono (m1 m2 len : nat) :
  m1 ≤ m2 → (_calculate_ratio m1 len <= _calculate_ratio m2 len)%Q.
Proof.
  intros Hle. unfold _calculate_ratio. destruct len; [apply Qle_refl|].
  unfold Qle. cbn [Qnum Qden]. nia.
Qed.

Lemma matches_le_quick a b :
  blocks_size (get_matching_blocks a b) ≤ quick_matches a b.
Proof.
  destruct (matching_blocks_bound a b) as (X & -> & Ha & Hb).
  rewrite quick_matches_spec, <- list_to_set_disj_size.
  apply gmultiset_subseteq_size. multiset_solver.
Qed.

Lemma matches_le_min a b :
  blocks_size (get_matching_blocks a b) ≤ length a `min` length b.
Proof.
  destruct (matching_blocks_bound a b) as (X & -> & Ha & Hb).
  apply gmultiset_subseteq_size in Ha, Hb.
  rewrite !list_to_set_disj_size in Ha, Hb. lia.
Qed.

Lemma ratio_le_quick_ratio a b : (ratio a b <= quick_ratio a b)%Q.
Proof.
  unfold ratio, quick_ratio. pose proof (matches_le_quick a b) as Hle.
  unfold quick_matches in Hle. destruct (fold_left _ a _) as [avail matches].
  by apply _calculate_ratio_mono.
Qed.

Lemma ratio_le_real_quick_ratio a b : (ratio a b <= real_quick_ratio a b)%Q.
Proof.
  unfold ratio, real_quick_ratio. apply _calculate_ratio_mono, matches_le_min.
Qed.

End MatchingBlocks.

(** ** [get_close_matches]: the best match and its tie-break *)

Section CloseMatches.
Import Difflib DifflibSpec.

(** The queue loop of [get_matching_blocks] is given enough passes: any
    larger bound yields the same blocks. *)
Lemma get_matching_blocks_fuel `{Countable A} (a b : list A) (extra : nat) :
  blocks_loop a b (chain_b b) (2 * length a + 1 + extra)
              [(0, length a, 0, length b)] []
  = blocks_loop a b (chain_b b) (2 * length a + 1)
                [(0, length a, 0, length b)] [].
Proof.
  apply blocks_loop_more_fuel.
  - apply chain_b_sound.
  - apply Forall_singleton. unfold region_ok. cbn. lia.
  - unfold queue_measure. cbn. lia.
Qed.

Lemma close_enough_iff (cutoff : Q) (word x : string) :
  close_enough cutoff word x = true ↔ (cutoff <= seq_ratio word x)%Q.
Proof.
  unfold close_enough, seq_ratio, seq_quick_ratio, seq_real_quick_ratio.
  rewrite !andb_true_iff, !Qle_bool_iff. split; [tauto|]. intros Hle.
  pose proof (ratio_le_quick_ratio (list_ascii_of_string x)
                                   (list_ascii_of_string word)).
  pose proof (ratio_le_real_quick_ratio (list_ascii_of_string x)
                                        (list_ascii_of_string word)).
  split_and!; [|  |done]; by eapply Qle_trans.
Qed.

Lemma str_gt_false (x y : string) : str_gt x y = false ↔ (x ≤ y)%string.
Proof.
  unfold str_gt, String.ltb, String.le, String.leb.
  rewrite (String.compare_antisym x y).
  destruct (String.compare y x); cbn; split; done.
Qed.

Lemma tuple_gt_false (s t : Q * string) : tuple_gt s t = false ↔ tuple_le s t.
Proof.
  unfold tuple_gt, tuple_le.
  destruct (Qeq_bool s.1 t.1) eqn:Eq.
  - apply Qeq_bool_iff in Eq.
    destruct (String.eqb s.2 t.2) eqn:Es.
    + apply String.eqb_eq in Es. split; [|done]. intros _. right.
      split; [done|]. by rewrite Es.
    + rewrite str_gt_false. split; [by right|].
      intros [Hlt|[_ ?]]; [|done]. rewrite Eq in Hlt.
      by apply Qlt_irrefl in Hlt.
  - apply Qeq_bool_neq in Eq. rewrite negb_false_iff, Qle_bool_iff. split.
    + intros Hle. left. apply Qle_lteq in Hle as [?|?]; done.
    + intros [Hlt|[? _]]; [by apply Qlt_le_weak | done].
Qed.

Lemma tuple_gt_true (s t : Q * string) : tuple_gt s t = true → tuple_le t s.
Proof.
  unfold tuple_gt, tuple_le.
  destruct (Qeq_bool s.1 t.1) eqn:Eq.
  - apply Qeq_bool_iff in Eq.
    destruct (String.eqb s.2 t.2); [done|].
    intros Hgt. right. split; [by symmetry|].
    destruct (total String.le t.2 s.2) as [?|Hle]; [done|].
    apply str_gt_false in Hle. congruence.
  - rewrite negb_true_iff. intros Hle. left.
    apply Qnot_le_lt. intros Hle'. apply Qle_bool_iff in Hle'. congruence.
Qed.

Lemma tuple_le_trans (s t u : Q * string) :
  tuple_le s t → tuple_le t u → tuple_le s u.
Proof.
  unfold tuple_le. intros [H1|[H1 H1']] [H2|[H2 H2']].
  - left. lra.
  - left. lra.
  - left. lra.
  - right. split; [lra|]. by etransitivity.
Qed.

Lemma tuple_le_refl (s : Q * string) : tuple_le s s.
Proof. right. split; [reflexivity | done]. Qed.

(** [max] returns an element of its input that no other exceeds. *)
Lemma max_from_spec (cur : Q * string) (it : list (Q * string)) :
  max_from cur it ∈ cur :: it
  ∧ ∀ y, y ∈ cur :: it → tuple_le y (max_from cur it).
Proof.
  revert cur. induction it as [|item it IH]; intros cur.
  { cbn. split; [left|]. intros y ->%list_elem_of_singleton.
    apply tuple_le_refl. }
  cbn [max_from].
  destruct (IH (if tuple_gt item cur then item else cur)) as [Hin Hmax].
  assert (Hcur : tuple_le cur (if tuple_gt item cur then item else cur)
                 ∧ tuple_le item (if tuple_gt item cur then item else cur)).
  { destruct (tuple_gt item cur) eqn:E.
    - split; [by apply tuple_gt_true | apply tuple_le_refl].
    - split; [apply tuple_le_refl | by apply tuple_gt_false]. }
  split.
  - apply elem_of_cons in Hin as [Hin|Hin].
    + rewrite Hin. destruct (tuple_gt item cur); [right; left | left].
    + by do 2 right.
  - intros y Hy. apply elem_of_cons in Hy as [->|Hy].
    + eapply tuple_le_trans; [apply Hcur|]. apply Hmax. left.
    + apply elem_of_cons in Hy as [->|Hy].
      * eapply tuple_le_trans; [apply Hcur|]. apply Hmax. left.
      * apply Hmax. by right.
Qed.

(** [get_close_matches] with [n = 1]: nothing is returned exactly when no
    possibility reaches the cutoff; otherwise the one name returned is a
    possibility whose ratio reaches the cutoff and is the highest, and among
    possibilities of that highest ratio it is the greatest name in the order
    of Python strings. *)
Lemma get_close_matches_spec (word : string) (possibilities : list string)
    (cutoff : Q) :
  match get_close_matches word possibilities cutoff with
  | [] => Forall (fun x => (seq_ratio word x < cutoff)%Q) possibilities
  | m :: others =>
      others = [] ∧ m ∈ possibilities ∧ (cutoff <= seq_ratio word m)%Q
      ∧ Forall (fun x => (cutoff <= seq_ratio word x)%Q →
                  (seq_ratio word x < seq_ratio word m)%Q
                  ∨ ((seq_ratio word x == seq_ratio word m)%Q
                     ∧ (x ≤ m)%string))
               possibilities
  end.
Proof.
  unfold get_close_matches.
  set (good := filter (fun x => close_enough cutoff word x = true) possibilities).
  assert (Hgood : ∀ x, x ∈ good ↔ x ∈ possibilities
                                   ∧ (cutoff <= seq_ratio word x)%Q).
  { intros x. unfold good. rewrite list_elem_of_filter, close_enough_iff. tauto. }
  destruct good as [|g good'] eqn:Egood; cbn.
  - apply Forall_forall. intros x Hx. apply Qnot_le_lt. intros Hle.
    assert (x ∈ []) as Hin by (apply Hgood; done). by apply elem_of_nil in Hin.
  - set (result := (fun x => (seq_ratio word x, x)) <$> good').
    destruct (max_from_spec (seq_ratio word g, g) result) as [Hin Hmax].
    assert (Hm : ∃ m, max_from (seq_ratio word g, g) result = (seq_ratio word m, m)
                      ∧ m ∈ g :: good').
    { apply elem_of_cons in Hin as [Hin|Hin].
      - exists g. split; [done | left].
      - apply list_elem_of_fmap in Hin as (m & Hm & Hmin).
        exists m. split; [done | by right]. }
    destruct Hm as (m & Hmeq & Hmin). rewrite Hmeq in *. cbn.
    apply Hgood in Hmin as [Hmp Hmc].
    split_and!; try done.
    apply Forall_forall. intros x Hx Hxc.
    assert (Hxg : x ∈ g :: good') by (by apply Hgood).
    assert (Hle : tuple_le (seq_ratio word x, x) (seq_ratio word m, m)).
    { apply Hmax. apply elem_of_cons in Hxg as [->|Hxg]; [left|right].
      by apply (list_elem_of_fmap_2 (fun x => (seq_ratio word x, x))). }
    exact Hle.
Qed.

(** C2, counterexample: the names "john smitha" and "john smithb" are
    equally similar to "john smith" (ratio 20/21, above the cutoff); the
    fuzzy search returns "john smithb", the second of the snapshot, and the
    payment is credited to the second account, not to the first. *)
Lemma fuzzy_tie_not_earliest_position :
  let members :=
    [Member.mk (Some 1%Z) (Some "John Smitha") "A" "Yes" "john smitha";
     Member.mk (Some 2%Z) (Some "John Smithb") "B" "Yes" "john smithb"] in
  let payments :=
    [Payment.mk None (Some "John Smith") 120 "2024-04-01" "john smith"] in
  (seq_ratio "john smith" "john smitha" == seq_ratio "john smith" "john smithb")%Q
  ∧ (FUZZY_CUTOFF <= seq_ratio "john smith" "john smitha")%Q
  ∧ Player.NormalizedName <$> init_selected members
    = ["john smitha"; "john smithb"]
  ∧ get_close_matches "john smith" ["john smitha"; "john smithb"] FUZZY_CUTOFF
    = ["john smithb"]
  ∧ Player.PaidAmount
      <$> r_selected_players (reconcile_memberships members payments)
    = [0%Q; 120%Q].
Proof. vm_compute. split_and!; (reflexivity || discriminate). Qed.

(** C2, amended: for a payment that the second pass reaches with a
    non-empty normalised name, the name selected is a normalised name of an
    obligated payer whose similarity ratio to the payment's name is at
    least 0.86 and is the highest among all obligated payers' names; when
    several names tie on the highest ratio, the one that is greatest in the
    order of Python strings is selected, whatever its position. No name is
    selected exactly when every ratio is below 0.86. *)
Theorem fuzzy_match_is_best (selected : list Player.t) (name : string) :
  name ≠ "" →
  let names := Player.NormalizedName <$> selected in
  match fuzzy_name selected name with
  | None => Forall (fun x => (seq_ratio name x < FUZZY_CUTOFF)%Q) names
  | Some m =>
      m ∈ names ∧ (FUZZY_CUTOFF <= seq_ratio name m)%Q
      ∧ Forall (fun x => (FUZZY_CUTOFF <= seq_ratio name x)%Q →
                  (seq_ratio name x < seq_ratio name m)%Q
                  ∨ ((seq_ratio name x == seq_ratio name m)%Q
                     ∧ (x ≤ m)%string))
               names
  end.
Proof.
  intros Hname names. unfold fuzzy_name. rewrite decide_False by done.
  pose proof (get_close_matches_spec name names FUZZY_CUTOFF) as Hspec.
  fold names. destruct (get_close_matches name names FUZZY_CUTOFF) as [|m ms].
  - done.
  - cbn. by destruct Hspec as (_ & ? & ? & ?).
Qed.

(** The amended statement at the payment "jon smith" of the sample tables. *)
Lemma fuzzy_match_is_best_witness :
  match fuzzy_name (init_selected Sample.members) "jon smith" with
  | None => False
  | Some m => m = "john smith"
  end
  ∧ Forall (fun x => (FUZZY_CUTOFF <= seq_ratio "jon smith" x)%Q →
              (seq_ratio "jon smith" x < seq_ratio "jon smith" "john smith")%Q
              ∨ ((seq_ratio "jon smith" x == seq_ratio "jon smith" "john smith")%Q
                 ∧ (x ≤ "john smith")%string))
           (Player.NormalizedName <$> init_selected Sample.members).
Proof.
  pose proof (fuzzy_match_is_best (init_selected Sample.members) "jon smith")
    as Hbest.
  assert (Hsel : fuzzy_name (init_selected Sample.members) "jon smith"
                 = Some "john smith") by (vm_compute; reflexivity).
  rewrite Hsel in *. split; [reflexivity|].
  apply Hbest. discriminate.
Defined.

End CloseMatches.

(** * Further properties of the engine *)

(** ** The table of accounts *)

Section AccountTable.
Implicit Types (members_df : list Member.t) (ps : list Payment.t).

Lemma max0_nonneg (y : Q) : (0 <= max0 y)%Q.
Proof.
  unfold max0. destruct (Qgtb y 0) eqn:E; [|apply Qle_refl].
  apply Qgtb_true in E. by apply Qlt_le_weak.
Qed.

(** [outstanding = max(0, fee - paidAmount)] holds in the returned table,
    for the accounts that were credited and for those that were not, so
    no outstanding amount is negative. *)
Theorem outstanding_is_fee_shortfall members_df ps :
  Forall (fun A =>
      (Player.Outstanding A == max0 (ANNUAL_FEE - Player.PaidAmount A))%Q
      ∧ (0 <= Player.Outstanding A)%Q)
    (r_selected_players (reconcile_memberships members_df ps)).
Proof.
  apply Forall_lookup. intros k A HA.
  rewrite reconcile_players_lookup in HA.
  destruct (init_selected members_df !! k) as [pl0|] eqn:Ek; [|done].
  injection HA as <-.
  apply init_selected_lookup in Ek as (Hpaid & _ & Hout & _).
  cbn [update_status Player.Outstanding Player.PaidAmount].
  rewrite credit_all_Outstanding.
  destruct (last (credits (init_selected members_df) ps k)) as [p|] eqn:El.
  - split; [reflexivity | apply max0_nonneg].
  - apply last_None in El. rewrite El. cbn [credit_all fold_left].
    rewrite Hout, Hpaid. split; [reflexivity | discriminate].
Qed.

(** The returned table has exactly one row for each payer with
    [IsSelectedOfficialTeam = 'Yes'], in the order of the payer table, and
    the payer's own columns are unchanged: the passes add, drop, reorder
    and rename nothing. *)
Theorem selected_rows_are_obligated_members members_df ps :
  Player.member <$> r_selected_players (reconcile_memberships members_df ps)
  = obligated members_df.
Proof.
  unfold reconcile_memberships. cbn [r_selected_players].
  destruct (fuzzy_pass_spec (init_selected members_df) ps) as (Hm & _).
  rewrite <- list_fmap_compose.
  change (Player.member ∘ update_status) with Player.member.
  rewrite Hm. unfold init_selected, obligated.
  rewrite <- list_fmap_compose. apply list_fmap_id.
Qed.

End AccountTable.

(** ** The counts of the summary *)

Lemma count_status_partition (selected : list Player.t) :
  count_status Paid selected + count_status Underpaid selected
  + count_status Unpaid selected = length selected.
Proof.
  unfold count_status. induction selected as [|pl l IH]; [done|].
  rewrite !filter_cons. cbn [length].
  destruct (Player.PaidStatus pl); repeat case_decide; try done;
    cbn [length]; lia.
Qed.

(** The three status counts of the summary add up to the number of
    accounts, and the mismatch rate lies between 0 and 100. *)
Theorem mismatch_rate_is_a_percentage (selected : list Player.t) :
  count_status Paid selected + count_status Underpaid selected
  + count_status Unpaid selected = length selected
  ∧ ∃ rate,
      mismatch_rate (count_status Underpaid selected)
                    (count_status Unpaid selected) (length selected) = Ok rate
      ∧ (0 <= rate)%Q ∧ (rate <= 100)%Q.
Proof.
  pose proof (count_status_partition selected) as Hpart.
  split; [done|]. rewrite mismatch_rate_eq. eexists. split; [reflexivity|].
  set (u := count_status Underpaid selected) in *.
  set (n := count_status Unpaid selected) in *.
  destruct (length selected) as [|t] eqn:Et; cbn [Nat.eqb].
  - split; discriminate.
  - assert (Hle : (u + n ≤ S t)%nat) by lia.
    unfold Qnat, Qdiv, Qmult, Qinv, Qle, inject_Z.
    change (Z.of_nat (S t)) with (Z.pos (Pos.of_succ_nat t)).
    cbn [Qnum Qden]. split; lia.
Qed.

(** ** The audit trail *)

Section AuditTrail.
Import Difflib.
Implicit Types (members_df : list Member.t) (ps : list Payment.t).
Implicit Types (sel : list Player.t) (p : Payment.t).

Lemma init_selected_members members_df :
  Player.member <$> init_selected members_df = obligated members_df.
Proof.
  unfold init_selected, obligated. rewrite <- list_fmap_compose.
  apply list_fmap_id.
Qed.

Lemma partial_resolve_payment sel seen p :
  Resolved.payment (partial_resolve sel seen p) = p.
Proof. unfold partial_resolve. by repeat case_match. Qed.

Lemma resolved_payments_are_inputs members_df ps :
  Resolved.payment <$> r_resolved_payments (reconcile_memberships members_df ps)
  = ps.
Proof.
  unfold reconcile_memberships. cbn [r_resolved_payments].
  destruct (fuzzy_pass_spec (init_selected members_df) ps) as (_ & _ & _ & ->).
  rewrite <- list_fmap_compose. etrans; [|apply list_fmap_id].
  apply list_fmap_ext. intros i p _. apply partial_resolve_payment.
Qed.

(** A run writes one resolved row for every input payment, in input order,
    with the payment's four input columns unchanged; no payment is lost,
    duplicated or altered on its way through loading, the two passes and
    the export. *)
Theorem main_keeps_every_payment (fmt_1f fmt_2f : Q → string) (now : datetime)
    (members_csv : list Member.t) (payments_csv : list Payment.t)
    (external_csv : list Booking.t) :
  ∃ o, main fmt_1f fmt_2f now members_csv payments_csv external_csv = Ok o
       ∧ resolved_row_columns <$> ntu_membership_payments_resolved o
         = payment_columns <$> payments_csv.
Proof.
  unfold main, load_and_preprocess_data, validate_external_bookings.
  set (r := reconcile_memberships _ _).
  set (ext := annotate <$> _). set (iss := filter _ ext).
  destruct (generate_summary_eq fmt_1f fmt_2f now (r_selected_players r)
              (r_paid_not_selected r) (r_unmatched_payments r) ext iss)
    as (body & _ & ->).
  cbn [mbind result_bind]. eexists. split; [reflexivity|].
  cbn [ntu_membership_payments_resolved save_outputs].
  rewrite <- list_fmap_compose.
  change (resolved_row_columns ∘ _)
    with (payment_columns ∘ Resolved.payment).
  rewrite list_fmap_compose. subst r. rewrite resolved_payments_are_inputs.
  by rewrite <- list_fmap_compose.
Qed.

Lemma exact_target_None_iff sel p :
  exact_target sel p = None
  ↔ ∀ sid, Payment.StudentID p = Some sid →
           Forall (fun pl => Player.StudentID pl ≠ Some sid) sel.
Proof.
  unfold exact_target. destruct (Payment.StudentID p) as [sid|]; [|done].
  rewrite fmap_None, list_find_None. split.
  - by intros Hall sid' [= <-].
  - intros Hall. by apply Hall.
Qed.

Lemma obligated_Forall members_df (P : Member.t → Prop) :
  Forall (fun pl => P (Player.member pl)) (init_selected members_df)
  ↔ Forall P (obligated members_df).
Proof. by rewrite <- init_selected_members, Forall_fmap. Qed.

Lemma selected_row_member members_df k pl :
  init_selected members_df !! k = Some pl →
  Player.member pl ∈ obligated members_df.
Proof.
  intros Hk. rewrite <- init_selected_members.
  apply list_elem_of_fmap. exists pl. split; [done|].
  by eapply list_elem_of_lookup_2.
Qed.

(** An entry with match type [StudentID] is resolved to the payment's own
    identifier, and an obligated payer carries it. *)
Theorem exact_entry_resolves_to_own_identifier members_df ps :
  Forall (fun rp =>
      Resolved.MatchType rp = MT_StudentID →
      is_Some (Resolved.ResolvedStudentID rp)
      ∧ Resolved.ResolvedStudentID rp
        = Payment.StudentID (Resolved.payment rp)
      ∧ ∃ m, m ∈ obligated members_df
             ∧ Member.StudentID m = Resolved.ResolvedStudentID rp)
    (r_resolved_payments (reconcile_memberships members_df ps)).
Proof.
  unfold reconcile_memberships. cbn [r_resolved_payments].
  destruct (fuzzy_pass_spec (init_selected members_df) ps) as (_ & _ & _ & ->).
  rewrite Forall_fmap. apply Forall_forall. intros p _. cbn.
  unfold partial_resolve.
  destruct (exact_target _ p) as [k|] eqn:Hex.
  - intros _. cbn.
    apply exact_target_Some in Hex as (pl & sid & Hk & Hp & Hid & _).
    unfold row_id. rewrite Hk. cbn. rewrite Hid, Hp.
    split_and!; [by eexists | done |].
    exists (Player.member pl). split; [|done].
    by eapply selected_row_member.
  - case_decide; cbn; done.
Qed.

Lemma fuzzy_name_Some sel name n :
  fuzzy_name sel name = Some n →
  name ≠ "" ∧ n ∈ Player.NormalizedName <$> sel
  ∧ (FUZZY_CUTOFF <= seq_ratio name n)%Q.
Proof.
  unfold fuzzy_name. case_decide as Hname; [done|]. intros Hhead.
  pose proof (get_close_matches_spec name (Player.NormalizedName <$> sel)
                FUZZY_CUTOFF) as Hspec.
  destruct (get_close_matches _ _ _) as [|m ms]; [done|].
  injection Hhead as ->. by destruct Hspec as (_ & ? & ? & _).
Qed.

Lemma fuzzy_name_None sel name :
  fuzzy_name sel name = None
  ↔ name = ""
    ∨ Forall (fun pl => (seq_ratio name (Player.NormalizedName pl)
                         < FUZZY_CUTOFF)%Q) sel.
Proof.
  unfold fuzzy_name. case_decide as Hname; [by split; [left|]|].
  pose proof (get_close_matches_spec name (Player.NormalizedName <$> sel)
                FUZZY_CUTOFF) as Hspec.
  destruct (get_close_matches _ _ _) as [|m ms]; cbn.
  - split; [|done]. intros _. right. by rewrite Forall_fmap in Hspec.
  - split; [done|]. intros [?|Hall]; [done|].
    destruct Hspec as (_ & Hin & Hle & _).
    apply list_elem_of_fmap in Hin as (pl & -> & Hpl).
    eapply Forall_forall in Hall; [|done]. cbn in Hall.
    by apply Qlt_not_le in Hall.
Qed.

Lemma fuzzy_target_name_None sel name :
  fuzzy_target_name sel name = None ↔ fuzzy_name sel name = None.
Proof.
  unfold fuzzy_target_name. split; [|by intros ->].
  destruct (fuzzy_name sel name) as [n|] eqn:Hn; [|done]. cbn.
  rewrite fmap_None, list_find_None. intros Hall.
  apply fuzzy_name_Some in Hn as (_ & Hin & _).
  apply list_elem_of_fmap in Hin as (pl & -> & Hpl).
  eapply Forall_forall in Hall; [|done]. done.
Qed.

Lemma resolve_MatchType sel p :
  Resolved.MatchType (resolve sel p)
  = match exact_target sel p with
    | Some _ => MT_StudentID
    | None => match fuzzy_target sel p with
              | Some _ => MT_FuzzyName
              | None => MT_Unmatched
              end
    end.
Proof. unfold resolve. by repeat case_match. Qed.

(** An entry with match type [FuzzyName] belongs to a payment with a
    non-empty normalised name whose identifier, if any, is carried by no
    obligated payer; it is resolved to the identifier of an obligated payer
    whose normalised name has a similarity ratio of at least 0.86 with the
    payment's. *)
Theorem fuzzy_entry_resolves_to_similar_payer members_df ps :
  preprocessed ps →
  Forall (fun rp =>
      Resolved.MatchType rp = MT_FuzzyName →
      let p := Resolved.payment rp in
      let name := normalize_name (Payment.FullName p) in
      name ≠ ""
      ∧ (∀ sid, Payment.StudentID p = Some sid →
                Forall (fun m => Member.StudentID m ≠ Some sid)
                       (obligated members_df))
      ∧ ∃ m, m ∈ obligated members_df
             ∧ Resolved.ResolvedStudentID rp = Member.StudentID m
             ∧ (FUZZY_CUTOFF <= seq_ratio name (Member.NormalizedName m))%Q)
    (r_resolved_payments (reconcile_memberships members_df ps)).
Proof.
  intros Hpre. rewrite reconcile_resolved by done.
  rewrite Forall_fmap. apply Forall_forall. intros p _. cbn.
  rewrite resolve_MatchType. unfold resolve.
  destruct (exact_target _ p) as [k|] eqn:Hex; [done|].
  destruct (fuzzy_target _ p) as [k|] eqn:Hfz; [|done].
  intros _. cbn.
  apply fuzzy_target_Some in Hfz as (pl & n & Hk & Hn & Hnn & _).
  apply fuzzy_name_Some in Hn as (Hname & _ & Hle).
  split_and!; [done| |].
  - intros sid Hsid. apply obligated_Forall.
    by apply (exact_target_None_iff _ p).
  - exists (Player.member pl). split_and!.
    + by eapply selected_row_member.
    + unfold row_id. by rewrite Hk.
    + by rewrite <- Hnn in Hle.
Qed.

(** A payment ends [Unmatched], with no resolved identifier, exactly when no
    obligated payer carries its identifier and either its normalised name is
    empty or every obligated payer's normalised name has a similarity ratio
    below 0.86 with it. *)
Theorem unmatched_entry_iff members_df ps :
  preprocessed ps →
  Forall (fun rp =>
      let p := Resolved.payment rp in
      let name := normalize_name (Payment.FullName p) in
      (Resolved.MatchType rp = MT_Unmatched
       ↔ (∀ sid, Payment.StudentID p = Some sid →
                 Forall (fun m => Member.StudentID m ≠ Some sid)
                        (obligated members_df))
         ∧ (name = ""
            ∨ Forall (fun m => (seq_ratio name (Member.NormalizedName m)
                                < FUZZY_CUTOFF)%Q)
                     (obligated members_df)))
      ∧ (Resolved.MatchType rp = MT_Unmatched →
         Resolved.ResolvedStudentID rp = None))
    (r_resolved_payments (reconcile_memberships members_df ps)).
Proof.
  intros Hpre. rewrite reconcile_resolved by done.
  rewrite Forall_fmap. apply Forall_forall. intros p _. cbn.
  assert (Hex : exact_target (init_selected members_df) p = None
                ↔ ∀ sid, Payment.StudentID p = Some sid →
                         Forall (fun m => Member.StudentID m ≠ Some sid)
                                (obligated members_df)).
  { rewrite exact_target_None_iff. split; intros Hall sid Hsid.
    - by apply obligated_Forall, Hall.
    - by apply (obligated_Forall members_df
                  (fun m => Member.StudentID m ≠ Some sid)), Hall. }
  assert (Hfz : fuzzy_target (init_selected members_df) p = None
                ↔ normalize_name (Payment.FullName p) = ""
                  ∨ Forall (fun m =>
                       (seq_ratio (normalize_name (Payment.FullName p))
                                  (Member.NormalizedName m) < FUZZY_CUTOFF)%Q)
                      (obligated members_df)).
  { unfold fuzzy_target. rewrite fuzzy_target_name_None, fuzzy_name_None.
    by rewrite <- (obligated_Forall members_df
      (fun m => (seq_ratio _ (Member.NormalizedName m) < FUZZY_CUTOFF)%Q)). }
  rewrite resolve_MatchType. unfold resolve.
  destruct (exact_target _ p) as [k|] eqn:E1.
  { split; [split; [done|] | done].
    intros [Hno _]. apply Hex in Hno. congruence. }
  destruct (fuzzy_target _ p) as [k|] eqn:E2.
  { split; [split; [done|] | done].
    intros [_ Hlow]. apply Hfz in Hlow. congruence. }
  split; [|done]. split; [|done]. intros _.
  split; [by apply Hex | by apply Hfz].
Qed.

End AuditTrail.

(** ** Where the money goes *)

Section Money.
Implicit Types (members_df : list Member.t) (ps : list Payment.t).
Implicit Types (sel : list Player.t) (p : Payment.t) (k : nat).

Lemma filter_fmap_commute {T U : Type} (f : T → U) (P : U → Prop)
    `{!∀ y, Decision (P y)} (l : list T) :
  filter P (f <$> l) = f <$> filter (fun x => P (f x)) l.
Proof.
  induction l as [|x l IH]; [done|].
  rewrite fmap_cons, !filter_cons. case_decide; [rewrite fmap_cons|];
    by rewrite IH.
Qed.

(** A filter on the rows of [iterrows] that only looks at the row itself. *)
Lemma filter_iterrows {T : Type} (P : nat * T → Prop) (R : T → Prop)
    `{!∀ x, Decision (P x)} `{!∀ x, Decision (R x)} (l : list T) (n : nat) :
  (∀ i x, l !! i = Some x → (P (n + i, x) ↔ R x)) →
  snd <$> filter P (imap (fun i => pair (n + i)) l) = filter R l.
Proof.
  revert n. induction l as [|x l IH]; intros n Hiff; [done|].
  rewrite imap_cons, !filter_cons.
  assert (Htail : snd <$> filter P (imap ((fun i => pair (n + i)) ∘ S) l)
                  = filter R l).
  { rewrite <- (IH (S n)).
    - f_equal. f_equal. apply imap_ext. intros i y _. cbn. f_equal. lia.
    - intros i y Hy. rewrite <- (Hiff (S i) y Hy). by rewrite Nat.add_succ_comm. }
  pose proof (Hiff 0 x eq_refl) as Hhead.
  destruct (decide (P (n + 0, x))) as [HP|HP];
    destruct (decide (R x)) as [HR|HR]; try tauto.
  by rewrite fmap_cons, Htail.
Qed.

Lemma matched_index_iff members_df ps idx p :
  ps !! idx = Some p →
  idx ∈ matched_payment_indices
          (fuzzy_pass (exact_pass (init_selected members_df) ps) ps)
  ↔ is_Some (target (init_selected members_df) p).
Proof.
  intros Hp.
  destruct (fuzzy_pass_spec (init_selected members_df) ps) as (_ & _ & Hi & _).
  rewrite Hi. unfold target. split.
  - intros (q & Hq & Hsome). rewrite Hp in Hq. injection Hq as <-.
    destruct (exact_target _ p); [by eexists|]. by destruct Hsome as [[? [=]]|?].
  - intros Hsome. exists p. split; [done|].
    destruct (exact_target _ p); [left; by eexists | by right].
Qed.

Lemma resolve_Unmatched_iff sel p :
  Resolved.MatchType (resolve sel p) = MT_Unmatched ↔ target sel p = None.
Proof.
  rewrite resolve_MatchType. unfold target.
  destruct (exact_target sel p); [done|]. by destruct (fuzzy_target sel p).
Qed.

(** The list "paid but not selected" is cut out of the unmatched payments:
    it holds, in input order, exactly the unmatched payments that match no
    member of the payer table at all. A payment consumed by either pass is
    never in it. *)
Theorem paid_not_selected_within_unmatched members_df ps :
  preprocessed ps →
  let r := reconcile_memberships members_df ps in
  r_paid_not_selected r
  = filter (fun p => payment_matched members_df p = false)
           (Resolved.payment <$> r_unmatched_payments r).
Proof.
  intros Hpre r. subst r.
  pose proof (reconcile_resolved members_df ps Hpre) as Hres.
  unfold reconcile_memberships in *.
  cbn [r_paid_not_selected r_unmatched_payments r_resolved_payments] in *.
  rewrite Hres.
  rewrite (filter_fmap_commute (resolve (init_selected members_df))
             (fun rp => Resolved.MatchType rp = MT_Unmatched)).
  rewrite <- list_fmap_compose.
  assert (Hid : ∀ l : list Payment.t,
            Resolved.payment ∘ resolve (init_selected members_df) <$> l = l).
  { intros l. etrans; [|apply list_fmap_id]. apply list_fmap_ext.
    intros i p _. unfold resolve. cbn. by repeat case_match. }
  rewrite Hid, list_filter_filter. unfold find_paid_not_selected, iterrows.
  apply (filter_iterrows _ _ ps 0). intros i p Hp. cbn [fst snd Nat.add].
  rewrite resolve_Unmatched_iff.
  rewrite (matched_index_iff members_df ps i p Hp).
  rewrite <- eq_None_not_Some. tauto.
Qed.

(** *** Sums *)

Lemma Qsum_cons (x : Q) (l : list Q) : Qsum (x :: l) = (x + Qsum l)%Q.
Proof. reflexivity. Qed.

Lemma Qsum_Permutation (l l' : list Q) : l ≡ₚ l' → (Qsum l == Qsum l')%Q.
Proof.
  induction 1 as [|x l l' _ IH|x y l|l l' l'' _ IH1 _ IH2].
  - reflexivity.
  - rewrite !Qsum_cons, IH. reflexivity.
  - rewrite !Qsum_cons. ring.
  - by rewrite IH1.
Qed.

Lemma Qsum_pointwise (l : list Q) (h : nat → Q) (s : nat) :
  (∀ i x, l !! i = Some x → (x == h (s + i)%nat)%Q) →
  (Qsum l == Qsum (h <$> seq s (length l)))%Q.
Proof.
  revert s. induction l as [|x l IH]; intros s Hpt; [reflexivity|].
  cbn [length seq]. rewrite fmap_cons, !Qsum_cons.
  rewrite (Hpt 0%nat x eq_refl), Nat.add_0_r, (IH (S s)); [reflexivity|].
  intros i y Hy. rewrite (Hpt (S i) y Hy). by rewrite Nat.add_succ_comm.
Qed.

Lemma Qsum_seq_ext (h1 h2 : nat → Q) (s n : nat) :
  (∀ k, (h1 k == h2 k)%Q) →
  (Qsum (h1 <$> seq s n) == Qsum (h2 <$> seq s n))%Q.
Proof.
  intros Hext. revert s. induction n as [|n IH]; intros s; [reflexivity|].
  cbn [seq]. rewrite !fmap_cons, !Qsum_cons, Hext, IH. reflexivity.
Qed.

Lemma Qsum_seq_add (h1 h2 : nat → Q) (s n : nat) :
  (Qsum ((fun k => h1 k + h2 k) <$> seq s n)
   == Qsum (h1 <$> seq s n) + Qsum (h2 <$> seq s n))%Q.
Proof.
  revert s. induction n as [|n IH]; intros s.
  - unfold Qsum. cbn. ring.
  - cbn [seq]. rewrite !fmap_cons, !Qsum_cons, IH. ring.
Qed.

(** Over a range of rows, a payment counts once if its target lies in the
    range and not at all otherwise. *)
Lemma Qsum_seq_indicator (t : option nat) (a : Q) (s n : nat) :
  (Qsum ((fun k => if decide (t = Some k) then a else 0) <$> seq s n)
   == match t with
      | Some k0 => if decide (s ≤ k0 < s + n)%nat then a else 0
      | None => 0
      end)%Q.
Proof.
  revert s. induction n as [|n IH]; intros s.
  - unfold Qsum. cbn. destruct t as [k0|]; [|reflexivity].
    rewrite decide_False by lia. reflexivity.
  - cbn [seq]. rewrite fmap_cons, Qsum_cons, IH.
    destruct t as [k0|].
    + destruct (decide (Some k0 = Some s)) as [[= ->]|Hne].
      * rewrite decide_False by lia. rewrite decide_True by lia. ring.
      * assert (k0 ≠ s) by congruence.
        destruct (decide (S s ≤ k0 < S s + n)%nat).
        -- rewrite decide_True by lia. ring.
        -- rewrite decide_False by lia. ring.
    + rewrite decide_False by done. ring.
Qed.

Lemma target_Some_lt sel p k : target sel p = Some k → (k < length sel)%nat.
Proof.
  unfold target. destruct (exact_target sel p) as [k0|] eqn:Hex.
  - intros [= <-].
    apply exact_target_Some in Hex as (pl & _ & Hk & _).
    by apply lookup_lt_Some in Hk.
  - intros (pl & _ & Hk & _)%fuzzy_target_Some.
    by apply lookup_lt_Some in Hk.
Qed.

Lemma credits_sum_target sel ps k :
  (Qsum (Payment.Amount <$> credits sel ps k)
   == Qsum (Payment.Amount <$> filter (fun p => target sel p = Some k) ps))%Q.
Proof.
  unfold credits, exact_matches, fuzzy_matches.
  rewrite fmap_app, Qsum_app.
  induction ps as [|p ps IH]; [reflexivity|].
  rewrite !filter_cons.
  assert (Ht : target sel p = Some k
               ↔ exact_target sel p = Some k
                 ∨ (exact_target sel p = None ∧ fuzzy_target sel p = Some k)).
  { unfold target. destruct (exact_target sel p) as [k0|].
    - split; [by left | by intros [?|[? _]]].
    - split; [by right | by intros [?|[_ ?]]]. }
  destruct (decide (exact_target sel p = Some k)) as [He|He].
  - rewrite decide_False by (intros [? _]; congruence).
    rewrite decide_True by (apply Ht; by left).
    rewrite !fmap_cons, !Qsum_cons, <- IH. ring.
  - destruct (decide (exact_target sel p = None
                      ∧ fuzzy_target sel p = Some k)) as [Hf|Hf].
    + rewrite decide_True by (apply Ht; by right).
      rewrite !fmap_cons, !Qsum_cons, <- IH. ring.
    + rewrite decide_False by (rewrite Ht; tauto). apply IH.
Qed.

(** Summed over all rows, the matches are the payments that have a
    target. *)
Lemma targets_sum sel ps :
  (Qsum ((fun k => Qsum (Payment.Amount
                           <$> filter (fun p => target sel p = Some k) ps))
           <$> seq 0 (length sel))
   == Qsum (Payment.Amount <$> filter (fun p => is_Some (target sel p)) ps))%Q.
Proof.
  induction ps as [|p ps IH].
  - rewrite (Qsum_seq_ext _ (fun _ => 0%Q + 0%Q)%Q) by (intros; reflexivity).
    generalize (length sel). intros n. generalize 0%nat.
    induction n as [|n IHn]; intros s; [reflexivity|].
    cbn [seq]. rewrite fmap_cons, Qsum_cons, IHn. reflexivity.
  - rewrite (Qsum_seq_ext _
      (fun k => (if decide (target sel p = Some k)
                 then Payment.Amount p else 0)
                + Qsum (Payment.Amount
                          <$> filter (fun p => target sel p = Some k) ps))%Q).
    + rewrite Qsum_seq_add, Qsum_seq_indicator, IH, filter_cons.
      destruct (target sel p) as [k0|] eqn:Ht.
      * apply target_Some_lt in Ht.
        rewrite decide_True by lia. rewrite decide_True by (by eexists).
        by rewrite fmap_cons, Qsum_cons.
      * rewrite decide_False by (by intros [? ?]). ring.
    + intros k. rewrite filter_cons. case_decide.
      * by rewrite fmap_cons, Qsum_cons.
      * ring.
Qed.

(** Nothing is credited twice and nothing is lost: the amounts collected
    over all accounts, the membership revenue that the summary reports, add
    up to the amounts of the payments that the audit trail does not mark
    [Unmatched]. Amounts are exact rationals here; the floating-point sums
    of the program agree with this up to rounding. *)
Theorem collected_is_sum_of_matched_payments members_df ps :
  preprocessed ps →
  let r := reconcile_memberships members_df ps in
  (Qsum (Player.PaidAmount <$> r_selected_players r)
   == Qsum ((fun rp => Payment.Amount (Resolved.payment rp))
              <$> filter (fun rp => Resolved.MatchType rp ≠ MT_Unmatched)
                         (r_resolved_payments r)))%Q.
Proof.
  intros Hpre r. subst r. rewrite reconcile_resolved by done.
  set (sel := init_selected members_df).
  set (rows := r_selected_players _).
  assert (Hlen : length rows = length sel).
  { unfold rows, reconcile_memberships. cbn [r_selected_players].
    destruct (fuzzy_pass_spec sel ps) as (Hm & _).
    apply (f_equal length) in Hm. rewrite !length_fmap in Hm.
    by rewrite length_fmap. }
  rewrite (Qsum_pointwise _
    (fun k => Qsum (Payment.Amount
                      <$> filter (fun p => target sel p = Some k) ps)) 0).
  - rewrite length_fmap, Hlen, targets_sum.
    rewrite filter_fmap_commute, <- list_fmap_compose.
    rewrite (list_filter_iff
               (fun x => Resolved.MatchType (resolve sel x) ≠ MT_Unmatched)
               (fun p => is_Some (target sel p))).
    + assert (Heq : ∀ l : list Payment.t,
                (fun rp => Payment.Amount (Resolved.payment rp)) ∘ resolve sel
                  <$> l = Payment.Amount <$> l).
      { intros l. apply list_fmap_ext. intros j p _. unfold resolve. cbn.
        by repeat case_match. }
      by rewrite Heq.
    + intros p. rewrite resolve_Unmatched_iff, <- not_eq_None_Some. done.
  - intros i x. rewrite list_lookup_fmap.
    destruct (rows !! i) as [A|] eqn:HA; [|done]. intros [= <-].
    apply reconcile_row in HA as (_ & _ & _ & Hpaid & _).
    cbn [Nat.add]. by rewrite Hpaid, credits_sum_target.
Qed.

End Money.

(** ** The fuzzy suggestions *)

Section Suggestions.
Import Difflib.
Implicit Types (members_df : list Member.t) (ps seen rest : list Payment.t).
Implicit Types (sel pls : list Player.t) (p : Payment.t).

Lemma fuzzy_prefix_skip sel ps seen p rest :
  ps = seen ++ p :: rest →
  length seen ∈ matched_payment_indices
                  (fold_left (fuzzy_step (Player.NormalizedName <$> sel))
                             (iterrows seen) (exact_pass sel ps))
  ↔ is_Some (exact_target sel p).
Proof.
  intros Hps.
  destruct (fuzzy_pass_prefix_spec sel ps seen (p :: rest) Hps)
    as (_ & _ & Hi & _).
  destruct (exact_pass_spec sel ps) as (_ & _ & Hi0 & _).
  cbn zeta in *. rewrite Hi, Hi0. split.
  - intros [(q & Hq & Hsome)|(q & Hq & _)].
    + rewrite Hps, lookup_app_r, Nat.sub_diag in Hq by done.
      by injection Hq as <-.
    + apply lookup_lt_Some in Hq. lia.
  - intros Hsome. left. exists p. split; [|done].
    by rewrite Hps, lookup_app_r, Nat.sub_diag.
Qed.

(** The search of the second loop finds the same row, with the same payer
    columns, in the current table as in the initial one. *)
Lemma find_same_row (n : string) pls sel :
  Player.member <$> pls = Player.member <$> sel →
  match list_find (fun pl => Player.NormalizedName pl = n) pls,
        list_find (fun pl => Player.NormalizedName pl = n) sel with
  | Some hit, Some hit0 => Player.FullName hit.2 = Player.FullName hit0.2
  | None, None => True
  | _, _ => False
  end.
Proof.
  intros Hm. pose proof (find_by_NormalizedName n pls sel Hm) as Hfst.
  destruct (list_find _ pls) as [[k pl]|] eqn:E1;
    destruct (list_find _ sel) as [[k0 pl0]|] eqn:E2; try done.
  cbn in Hfst. injection Hfst as <-.
  apply list_find_Some in E1 as (Hk & _). apply list_find_Some in E2 as (Hk0 & _).
  destruct (lookup_same_member _ _ _ _ Hm Hk) as (pl' & Hk' & Hmem).
  rewrite Hk0 in Hk'. injection Hk' as <-. cbn.
  unfold Player.FullName. by rewrite Hmem.
Qed.

Lemma fuzzy_suggestions_prefix sel ps seen rest :
  ps = seen ++ rest →
  fuzzy_suggestions (fold_left (fuzzy_step (Player.NormalizedName <$> sel))
                               (iterrows seen) (exact_pass sel ps))
  = omap (suggestion_of sel) seen.
Proof.
  revert rest. induction seen as [|p seen IH] using rev_ind; intros rest Hps.
  { cbn [iterrows imap fold_left].
    by destruct (exact_pass_spec sel ps) as (_ & _ & _ & _ & ->). }
  rewrite <- app_assoc in Hps. cbn [app] in Hps.
  specialize (IH (p :: rest) Hps).
  pose proof (fuzzy_prefix_skip sel ps seen p rest Hps) as Hidx.
  destruct (fuzzy_pass_prefix_spec sel ps seen (p :: rest) Hps) as (Hm & _).
  cbn zeta in Hm.
  unfold iterrows. rewrite imap_app, fold_left_app. cbn [imap fold_left].
  rewrite Nat.add_0_r. fold (iterrows seen).
  set (st := fold_left _ (iterrows seen) (exact_pass sel ps)) in *.
  assert (Hsnoc : omap (suggestion_of sel) (seen ++ [p])
                  = omap (suggestion_of sel) seen
                    ++ option_list (suggestion_of sel p)).
  { by rewrite omap_app. }
  rewrite Hsnoc, <- IH. clear Hsnoc IH.
  unfold fuzzy_step, suggestion_of.
  destruct (decide (length seen ∈ matched_payment_indices st)) as [Hin|Hnin].
  { apply Hidx in Hin as [k Hk]. rewrite Hk. by rewrite app_nil_r. }
  assert (Hex : exact_target sel p = None).
  { destruct (exact_target sel p) eqn:E; [|done]. exfalso. by apply Hnin, Hidx. }
  rewrite Hex. unfold fuzzy_name.
  destruct (decide (normalize_name (Payment.FullName p) = "")) as [Hempty|Hname].
  { cbn. by rewrite app_nil_r. }
  destruct (get_close_matches _ _ _) as [|m ms]; cbn.
  { by rewrite app_nil_r. }
  pose proof (find_same_row m (selected_players st) sel Hm) as Hrow.
  destruct (list_find _ (selected_players st)) as [[k pl]|];
    destruct (list_find _ sel) as [[k0 pl0]|]; try done; cbn.
  - cbn in Hrow. rewrite Hrow.
    destruct (decide (normalize_name (Payment.FullName p) ≠ m));
      [done | by rewrite app_nil_r].
  - by rewrite app_nil_r.
Qed.

(** A suggestion is emitted exactly for a payment that the second pass
    matches under a normalised name other than its own: the list of
    suggestions pairs, in input order, the entered full name of each such
    payment with the full name of the account credited. A fuzzy match on an
    identical normalised name emits none. *)
Theorem suggestions_are_renaming_matches members_df ps :
  let sel := init_selected members_df in
  let r := reconcile_memberships members_df ps in
  r_fuzzy_suggestions r = omap (suggestion_of sel) ps
  ∧ Forall (fun s =>
        ∃ p m, p ∈ ps ∧ m ∈ obligated members_df
          ∧ Suggestion.EnteredName s = Payment.FullName p
          ∧ Suggestion.SuggestedName s = Member.FullName m
          ∧ normalize_name (Payment.FullName p) ≠ Member.NormalizedName m
          ∧ (FUZZY_CUTOFF
             <= seq_ratio (normalize_name (Payment.FullName p))
                          (Member.NormalizedName m))%Q
          ∧ exact_target sel p = None)
      (r_fuzzy_suggestions r).
Proof.
  intros sel r.
  assert (Heq : r_fuzzy_suggestions r = omap (suggestion_of sel) ps).
  { subst r. unfold reconcile_memberships. cbn [r_fuzzy_suggestions].
    unfold fuzzy_pass.
    destruct (exact_pass_spec sel ps) as (Hm0 & _).
    cbn zeta in Hm0. fold sel. rewrite (same_member_names _ _ Hm0).
    apply (fuzzy_suggestions_prefix sel ps ps []). by rewrite app_nil_r. }
  split; [done|]. rewrite Heq. apply Forall_forall. intros s Hs.
  apply list_elem_of_omap in Hs as (p & Hp & Hsug).
  unfold suggestion_of in Hsug.
  destruct (exact_target sel p) eqn:Hex; [done|].
  destruct (fuzzy_name sel _) as [n|] eqn:Hn; [|done]. cbn in Hsug.
  destruct (list_find _ sel) as [[k pl]|] eqn:Hf; [|done]. cbn in Hsug.
  case_decide as Hne; [|done]. injection Hsug as <-.
  apply list_find_Some in Hf as (Hk & Hnn & _).
  apply fuzzy_name_Some in Hn as (_ & _ & Hle).
  exists p, (Player.member pl). split_and!; try done.
  - by eapply selected_row_member.
  - unfold Player.NormalizedName in Hnn. by rewrite Hnn.
  - unfold Player.NormalizedName in Hnn. by rewrite Hnn.
Qed.

End Suggestions.

(** ** Normalised names and their similarity *)

Section NamesAgain.
Import PyStr.

Lemma lower_char_fixed c : is_upper c = false → lower_char c = c.
Proof. unfold lower_char, is_upper. cbv zeta. by intros ->. Qed.

Lemma lower_fixed s :
  string_all (fun c => negb (is_upper c)) s = true → lower s = s.
Proof.
  induction s as [|c r IH]; [done|]. cbn [string_all lower].
  intros [Hc Hr]%andb_prop. apply negb_true_iff in Hc.
  by rewrite lower_char_fixed, IH.
Qed.

Lemma lstrip_fixed s :
  (∀ c, head_char s = Some c → isspace c = false) → lstrip s = s.
Proof. destruct s as [|c r]; [done|]. cbn. intros Hc. by rewrite Hc. Qed.

Lemma last_char_cons c r : is_Some (last_char (String c r)).
Proof. cbn. by destruct (last_char r). Qed.

Lemma rstrip_fixed s :
  (∀ c, last_char s = Some c → isspace c = false) → rstrip s = s.
Proof.
  induction s as [|c r IH]; [done|]. intros Hlast. cbn [rstrip].
  destruct r as [|d r'].
  - cbn. rewrite Hlast; [done|]. done.
  - rewrite IH.
    + done.
    + intros x Hx. apply Hlast. cbn [last_char] in *. by rewrite Hx.
Qed.

Lemma replace_double_space_fixed s :
  has_double_space s = false → replace_double_space s = s.
Proof.
  induction s as [n IH s Hlen] using string_scan_ind. intros Hds.
  destruct s as [|c [|d r]]; try done.
  rewrite replace_double_space_cons2.
  rewrite has_double_space_cons in Hds. cbn [head_char] in Hds.
  apply orb_false_elim in Hds as [Hcd Hrest]. rewrite Hcd.
  rewrite IH; [done | simpl in *; lia | done].
Qed.

(** A normalised name is stable: normalising it again returns it
    unchanged, provided the trimmed, lower-cased original has no run of three
    spaces (a longer run of spaces is halved again by a second pass). *)
Theorem normalize_name_idempotent (s : string) :
  has_triple_space (strip (lower s)) = false →
  normalize_name (Some (normalize_name (Some s))) = normalize_name (Some s).
Proof.
  intros Htri. unfold normalize_name.
  set (r := replace_double_space (strip (lower s))).
  assert (Hlow : lower r = r).
  { apply lower_fixed.
    apply replace_double_space_all, rstrip_all, lstrip_all, lower_all_lower. }
  assert (Hstrip : strip r = r).
  { unfold strip. rewrite lstrip_fixed.
    - apply rstrip_fixed. intros c. unfold r.
      rewrite replace_double_space_last. apply rstrip_last.
    - intros c. unfold r. rewrite replace_double_space_head. apply strip_head. }
  rewrite Hlow, Hstrip. apply replace_double_space_fixed.
  by apply replace_double_space_clean.
Qed.

Lemma normalize_name_idempotent_witness :
  normalize_name (Some (normalize_name (Some "  John  SMITH ")))
  = normalize_name (Some "  John  SMITH ").
Proof. apply normalize_name_idempotent. reflexivity. Defined.

End NamesAgain.

Section RatioRange.
Import Difflib DifflibSpec.

(** The similarity ratio lies between 0 and 1, and the two cheaper ratios
    that [get_close_matches] tests first never reject a candidate whose
    ratio reaches the cutoff: a candidate enters the result exactly when
    its ratio is at least the cutoff. *)
Theorem similarity_ratio_range (word x : string) :
  (0 <= seq_ratio word x)%Q ∧ (seq_ratio word x <= 1)%Q
  ∧ ∀ cutoff, close_enough cutoff word x = true
              ↔ (cutoff <= seq_ratio word x)%Q.
Proof.
  split_and!; [| |intros cutoff; apply close_enough_iff].
  - unfold seq_ratio, ratio, _calculate_ratio.
    destruct (_ + _)%nat; [discriminate|].
    unfold Qle. cbn [Qnum Qden]. lia.
  - unfold seq_ratio, ratio.
    pose proof (matches_le_min (list_ascii_of_string x)
                               (list_ascii_of_string word)) as Hle.
    unfold blocks_size in Hle. unfold _calculate_ratio.
    destruct (_ + _)%nat as [|t] eqn:Et; [apply Qle_refl|].
    unfold Qle. cbn [Qnum Qden]. lia.
Qed.

End RatioRange.

(** ** The further statements at the sample tables *)

Lemma sample_payments_preprocessed : preprocessed Sample.payments.
Proof. unfold preprocessed. vm_compute. repeat constructor. Qed.

Lemma fuzzy_entry_resolves_to_similar_payer_witness :
  Forall (fun rp =>
      Resolved.MatchType rp = MT_FuzzyName →
      let p := Resolved.payment rp in
      let name := normalize_name (Payment.FullName p) in
      name ≠ ""
      ∧ (∀ sid, Payment.StudentID p = Some sid →
                Forall (fun m => Member.StudentID m ≠ Some sid)
                       (obligated Sample.members))
      ∧ ∃ m, m ∈ obligated Sample.members
             ∧ Resolved.ResolvedStudentID rp = Member.StudentID m
             ∧ (FUZZY_CUTOFF
                <= Difflib.seq_ratio name (Member.NormalizedName m))%Q)
    (r_resolved_payments (reconcile_memberships Sample.members Sample.payments)).
Proof.
  apply fuzzy_entry_resolves_to_similar_payer, sample_payments_preprocessed.
Defined.

Lemma unmatched_entry_iff_witness :
  Forall (fun rp =>
      let p := Resolved.payment rp in
      let name := normalize_name (Payment.FullName p) in
      (Resolved.MatchType rp = MT_Unmatched
       ↔ (∀ sid, Payment.StudentID p = Some sid →
                 Forall (fun m => Member.StudentID m ≠ Some sid)
                        (obligated Sample.members))
         ∧ (name = ""
            ∨ Forall (fun m => (Difflib.seq_ratio name (Member.NormalizedName m)
                                < FUZZY_CUTOFF)%Q)
                     (obligated Sample.members)))
      ∧ (Resolved.MatchType rp = MT_Unmatched →
         Resolved.ResolvedStudentID rp = None))
    (r_resolved_payments (reconcile_memberships Sample.members Sample.payments)).
Proof. apply unmatched_entry_iff, sample_payments_preprocessed. Defined.

Lemma paid_not_selected_within_unmatched_witness :
  r_paid_not_selected (reconcile_memberships Sample.members Sample.payments)
  = filter (fun p => payment_matched Sample.members p = false)
           (Resolved.payment
              <$> r_unmatched_payments
                    (reconcile_memberships Sample.members Sample.payments)).
Proof.
  apply (paid_not_selected_within_unmatched Sample.members Sample.payments),
    sample_payments_preprocessed.
Defined.

Lemma collected_is_sum_of_matched_payments_witness :
  (Qsum (Player.PaidAmount
           <$> r_selected_players
                 (reconcile_memberships Sample.members Sample.payments))
   == Qsum ((fun rp => Payment.Amount (Resolved.payment rp))
              <$> filter (fun rp => Resolved.MatchType rp ≠ MT_Unmatched)
                         (r_resolved_payments
                            (reconcile_memberships Sample.members
                                                   Sample.payments))))%Q.
Proof.
  apply (collected_is_sum_of_matched_payments Sample.members Sample.payments),
    sample_payments_preprocessed.
Defined.
